(** * Motion-control core of the FTC 4560 robot (4560_Common.h)

    A shallow embedding of the functions of [Common.h] that shape joystick
    input, mix wheel commands, rotate to a compass heading and step the arm,
    together with the properties the design document states about them.

    Modelling conventions.
    - A ROBOTC [int] is a [Z].  The header does not fix the width of [int];
      on the documented input domains (powers in [-100,100], headings in
      [0,360)) every product the code forms fits 16 bits
      ([scaleJoystick_products_fit], [spin_command_fits]), so no wrap-around
      occurs there and none is written out.
    - Integer division [/] truncates toward zero: [Z.quot].
    - [max], [min] and [abs] are [Z.max], [Z.min] and [Z.abs].
    - The hardware (motor registers, compass, arm encoder) is explicit state:
      motor registers are a record that is passed through, sensor reads are
      taken from a list of the successive values the sensor delivers. *)

From Stdlib Require Import ZArith List Bool Lia QArith Qabs.
Import ListNotations.
Local Open Scope Z_scope.

(** ** Input shaping: [scaleJoystick] *)

(** [const int kMaximumPowerLevel = 100;] *)
Definition kMaximumPowerLevel : Z := 100.

(** [static const int nLogScale[33]] *)
Definition nLogScale : list Z :=
  [  0;   0;   6;   7;   8;   9;  10;  11;
    12;  14;  15;  17;  18;  22;  22;  24;
    30;  33;  36;  40;  43;  47;  50;  55;
    60;  66;  72;  77;  81;  89;  95; 100;
   100 ].

(** Array read [nLogScale[i]].  The index is in range at both uses (see
    [logIndex_in_range]); the default is never returned there. *)
Definition nLogScale_at (i : Z) : Z := nth (Z.to_nat i) nLogScale 0.

(** [int scaleJoystick(int &yOrig, int nMaxPower = kMaximumPowerLevel)].
    The global [bUseLogarithmicScale] is read, never written: it is the first
    argument.  [yOrig] is passed by reference but only read. *)
Definition scaleJoystick (bUseLogarithmicScale : bool) (yOrig nMaxPower : Z) : Z :=
  (* if (yOrig < 0) yScaled = max(yOrig, -127); else yScaled = min(yOrig, 127); *)
  let yScaled := if yOrig <? 0 then Z.max yOrig (-127) else Z.min yOrig 127 in
  let yScaled :=
    if bUseLogarithmicScale then
      (* yScaled /= 4; *)
      let yScaled := Z.quot yScaled 4 in
      if yScaled >=? 0 then nLogScale_at yScaled
      else - nLogScale_at (- yScaled)
    else if Z.abs yScaled <? 10 then 0
    else
      (* yScaled *= 100; yScaled /= 127; *)
      Z.quot (yScaled * 100) 127 in
  (* if (nMaxPower < kMaximumPowerLevel && nMaxPower > 0) *)
  if (nMaxPower <? kMaximumPowerLevel) && (nMaxPower >? 0)
  then Z.quot (yScaled * nMaxPower) kMaximumPowerLevel
  else yScaled.

(** The call [scaleJoystick(y)] with the default second argument. *)
Definition scaleJoystick_default (bUseLogarithmicScale : bool) (yOrig : Z) : Z :=
  scaleJoystick bUseLogarithmicScale yOrig kMaximumPowerLevel.

(** The three stages of [scaleJoystick], named for the statements below:
    the clamp of the raw reading, the table curve on a bucket index, and the
    linear curve with its dead band. *)
Definition clampAxis (yOrig : Z) : Z :=
  if yOrig <? 0 then Z.max yOrig (-127) else Z.min yOrig 127.
Definition logCurve (bucket : Z) : Z :=
  if bucket >=? 0 then nLogScale_at bucket else - nLogScale_at (- bucket).
Definition linearCurve (y : Z) : Z :=
  if Z.abs y <? 10 then 0 else Z.quot (y * 100) 127.
Definition curve (bUseLogarithmicScale : bool) (yOrig : Z) : Z :=
  if bUseLogarithmicScale then logCurve (Z.quot (clampAxis yOrig) 4)
  else linearCurve (clampAxis yOrig).

(** The range of a 16-bit signed integer, the narrowest width C allows for
    [int]. *)
Definition fits_int16 (z : Z) : Prop := -32768 <= z <= 32767.

(** The integers [lo], [lo+1], ..., [lo+n-1]. *)
Definition Zrange (lo : Z) (n : nat) : list Z :=
  map (fun k => lo + Z.of_nat k) (seq 0 n).

(** ** Drive kinematics: [cap100], [spin] *)

(** [int cap100(int value)] *)
Definition cap100 (value : Z) : Z :=
  if value >? 0 then Z.min value 100 else Z.max value (-100).

(** The four wheel motor registers [motor[motorNW]] ... [motor[motorSW]]. *)
Record Motors : Set := mkMotors
  { motorNW : Z; motorNE : Z; motorSE : Z; motorSW : Z }.

(** [void spin(int speed)]:
    [motor[motorNW] = motor[motorNE] = motor[motorSE] = motor[motorSW] = speed;] *)
Definition spin (speed : Z) (m : Motors) : Motors :=
  let m := mkMotors (motorNW m) (motorNE m) (motorSE m) speed in
  let m := mkMotors (motorNW m) (motorNE m) speed (motorSW m) in
  let m := mkMotors (motorNW m) speed (motorSE m) (motorSW m) in
  mkMotors speed (motorNE m) (motorSE m) (motorSW m).

(** ** Drive kinematics: [moveRobot]

    [moveRobot] computes in ROBOTC [float].  Every finite [float] is a
    rational, so a [float] value is a [Q]; an arithmetic operation is the exact
    operation followed by the rounding [roundF].  The trigonometric built-ins
    [cosDegrees] and [sinDegrees] and the rounding are not part of the header:
    they are the fields of [FloatOps]. *)

Record FloatOps : Type := mkFloatOps
  { cosDegrees : Q -> Q;
    sinDegrees : Q -> Q;
    roundF : Q -> Q }.

(** What is used of the built-ins: a cosine and a sine lie in [-1,1], and
    rounding never crosses an integer that [float] represents exactly. *)
Record FloatOps_ok (F : FloatOps) : Prop := mkFloatOps_ok
  { cosDegrees_bound : forall a, (Qabs (cosDegrees F a) <= 1)%Q;
    sinDegrees_bound : forall a, (Qabs (sinDegrees F a) <= 1)%Q;
    roundF_bound : forall (q : Q) (n : Z), 0 <= n <= 16777216 ->
        (Qabs q <= inject_Z n)%Q -> (Qabs (roundF F q) <= inject_Z n)%Q }.

(** Conversion of a [float] to an [int] drops the fraction. *)
Definition truncate (q : Q) : Z := Z.quot (Qnum q) (Zpos (Qden q)).

(** [void moveRobot(float speed, float angle)] *)
Definition moveRobot (F : FloatOps) (speed angle : Q) (m : Motors) : Motors :=
  (* float x_value = cosDegrees(angle) * cap100(speed); *)
  let x_value := roundF F (cosDegrees F angle * inject_Z (cap100 (truncate speed)))%Q in
  (* float y_value = sinDegrees(angle) * cap100(speed); *)
  let y_value := roundF F (sinDegrees F angle * inject_Z (cap100 (truncate speed)))%Q in
  let half (v : Q) : Z := truncate (roundF F (v / 2)%Q) in
  (* motor[motorNW] = mNWvalue = (-x_value - y_value)/2; *)
  let mNWvalue := half (roundF F (- x_value - y_value)%Q) in
  let m := mkMotors mNWvalue (motorNE m) (motorSE m) (motorSW m) in
  (* motor[motorNE] = mNEvalue = (-x_value + y_value)/2; *)
  let mNEvalue := half (roundF F (- x_value + y_value)%Q) in
  let m := mkMotors (motorNW m) mNEvalue (motorSE m) (motorSW m) in
  (* motor[motorSE] = mSEvalue = (x_value + y_value)/2; *)
  let mSEvalue := half (roundF F (x_value + y_value)%Q) in
  let m := mkMotors (motorNW m) (motorNE m) mSEvalue (motorSW m) in
  (* motor[motorSW] = mSWvalue = (x_value - y_value)/2; *)
  let mSWvalue := half (roundF F (x_value - y_value)%Q) in
  mkMotors (motorNW m) (motorNE m) (motorSE m) mSWvalue.

(** An instance used to run [moveRobot] on concrete inputs: exact arithmetic,
    and a cosine and sine that are the true ones at the four axis directions
    0, 90, 180 and 270 degrees (and 0 at every other angle, where the instance
    is not used). *)
Definition axisCos (a : Q) : Q :=
  if Qeq_bool a 0 then 1%Q else if Qeq_bool a 180 then (-1)%Q else 0%Q.
Definition axisSin (a : Q) : Q :=
  if Qeq_bool a 90 then 1%Q else if Qeq_bool a 270 then (-1)%Q else 0%Q.
Definition axisFloat : FloatOps := mkFloatOps axisCos axisSin (fun q => q).

(** ** Blocking calls and sensor traces

    [turnToHeading] and [armStep] busy-poll a sensor.  The successive values
    the sensor delivers are a list; a call consumes one element per read.  A
    call that is still inside its polling loop when the list ends is
    [Waiting]: it has not returned after that many reads. *)

Inductive Completion (A : Type) : Type :=
| Returned (v : A)
| Waiting.
Arguments Returned {A} v.
Arguments Waiting {A}.

(** ** Heading controller: [turnToHeading] *)

(** What a call does to the hardware, in program order. *)
Inductive Event : Set :=
| ReadStart (r : Z)   (* startAngle = lastReading = HTMCreadHeading(..) *)
| ReadPoll (r : Z)    (* currentReading = HTMCreadHeading(..) in the loop test *)
| SpinCmd (v : Z)     (* spin(v) *)
| Wait10Msec.         (* wait10Msec(1) *)

Record TurnRun : Set := mkTurnRun
  { result : Completion bool;   (* the value returned, if the call returned *)
    wheels : Motors;            (* the motor registers afterwards *)
    unread : list Z;            (* compass values not yet consumed *)
    events : list Event }.      (* hardware accesses made, oldest first *)

Definition emit (evs : list Event) (r : TurnRun) : TurnRun :=
  mkTurnRun (result r) (wheels r) (unread r) (evs ++ events r).

(** [int direction = (((heading - startAngle) % 360) > 180) ? 1 : -1;]
    ([%] is the remainder of the truncating division).  The function computes
    it and never uses it. *)
Definition turnDirection (heading startAngle : Z) : Z :=
  if Z.rem (heading - startAngle) 360 >? 180 then 1 else -1.

(** Where control is inside [turnToHeading]: at the top of a call with its
    [speed], or at the loop test with the locals [lastReading] and
    [numReadings]. *)
Inductive TurnPoint : Set :=
| AtEntry (speed : Z)
| AtLoopTest (speed lastReading numReadings : Z).

(** The body of [turnToHeading] from a control point on.  The recursive call
    [turnToHeading(heading, speed+10)] is the step to [AtEntry (speed + 10)];
    each sensor read consumes one compass value. *)
Fixpoint turnFrom (heading : Z) (pt : TurnPoint) (compass : list Z) (m : Motors)
  {struct compass} : TurnRun :=
  match pt with
  | AtEntry speed =>
      (* if (speed > 100) return false; *)
      if speed >? 100 then mkTurnRun (Returned false) m compass []
      else
        match compass with
        | [] => mkTurnRun Waiting m [] []
        | startAngle :: compass' =>
            (* int startAngle = lastReading = HTMCreadHeading(sensorCompass); *)
            let lastReading := startAngle in
            let direction := turnDirection heading startAngle in
            (* numReadings = 0; *)
            emit [ReadStart startAngle]
              (turnFrom heading (AtLoopTest speed lastReading 0) compass' m)
        end
  | AtLoopTest speed lastReading numReadings =>
      match compass with
      | [] => mkTurnRun Waiting m [] []
      | currentReading :: compass' =>
          (* while (heading != (currentReading = HTMCreadHeading(sensorCompass))) *)
          if heading =? currentReading
          then mkTurnRun (Returned true) m compass' [ReadPoll currentReading]
          else
            (* spin(20*heading); wait10Msec(1); *)
            let m := spin (20 * heading) m in
            (* if (currentReading == lastReading) numReadings++; else numReadings = 0; *)
            let numReadings :=
              if currentReading =? lastReading then numReadings + 1 else 0 in
            (* if (numReadings > 5) { spin(0); return turnToHeading(heading, speed+10); } *)
            if numReadings >? 5
            then emit [ReadPoll currentReading; SpinCmd (20 * heading); Wait10Msec; SpinCmd 0]
                   (turnFrom heading (AtEntry (speed + 10)) compass' (spin 0 m))
            else
              (* lastReading = currentReading; *)
              emit [ReadPoll currentReading; SpinCmd (20 * heading); Wait10Msec]
                (turnFrom heading (AtLoopTest speed currentReading numReadings) compass' m)
      end
  end.

(** [bool turnToHeading(const int heading, const int speed=20)] *)
Definition turnToHeading (heading speed : Z) (compass : list Z) (m : Motors) : TurnRun :=
  turnFrom heading (AtEntry speed) compass m.

(** A compass frozen at [r] for a whole call: the start read and six polls. *)
Definition frozen (r : Z) : list Z := repeat r 7.

(** The hardware accesses of [k] loop iterations that all read [r]. *)
Definition stalledPolls (heading r : Z) (k : nat) : list Event :=
  concat (repeat [ReadPoll r; SpinCmd (20 * heading); Wait10Msec] k).

(** The hardware accesses of a whole call that stalls on a compass frozen at
    [r]: the start read, six loop iterations, and the final [spin(0)]. *)
Definition stallEvents (heading r : Z) : list Event :=
  ReadStart r :: stalledPolls heading r 6 ++ [SpinCmd 0].

(** All four wheels stopped. *)
Definition stopped : Motors := mkMotors 0 0 0 0.

(** The compass values a run read at the loop test, and the spin commands it
    issued. *)
Definition polled (evs : list Event) : list Z :=
  flat_map (fun e => match e with ReadPoll r => [r] | _ => [] end) evs.
Definition spins (evs : list Event) : list Z :=
  flat_map (fun e => match e with SpinCmd v => [v] | _ => [] end) evs.
Definition reads (evs : list Event) : list Z :=
  flat_map (fun e => match e with ReadStart r | ReadPoll r => [r] | _ => [] end) evs.

(** ** Arm stepper: [armStep] *)

Record ArmRun : Set := mkArmRun
  { finished : Completion unit;  (* whether the call returned *)
    motorArm : Z;                (* motor[motorArm] afterwards *)
    encoderReads : nat;          (* reads of nMotorEncoder[motorArm] made *)
    encoderUnread : list Z }.    (* encoder values not yet consumed *)

(** The polling loop [while (keepWaiting(nMotorEncoder[motorArm])) wait1Msec(5);]
    on the successive encoder values. *)
Fixpoint armPoll (keepWaiting : Z -> bool) (power : Z) (encoder : list Z) (n : nat)
  : ArmRun :=
  match encoder with
  | [] => mkArmRun Waiting power n []
  | e :: encoder' =>
      if keepWaiting e then armPoll keepWaiting power encoder' (S n)
      else mkArmRun (Returned tt) power (S n) encoder'
  end.

(** [void armStep(int speed, int stepSize)].  [encoder] holds the values the
    encoder shows after [nMotorEncoder[motorArm] = 0]. *)
Definition armStep (speed stepSize : Z) (encoder : list Z) : ArmRun :=
  (* int direction = speed > 0 ? 1 : -1; *)
  let direction := if speed >? 0 then 1 else -1 in
  (* motor[motorArm] = speed; *)
  let power := speed in
  if direction =? 1
  then (* while (nMotorEncoder[motorArm] < abs(stepSize)) *)
    armPoll (fun e => e <? Z.abs stepSize) power encoder 0
  else (* while (nMotorEncoder[motorArm] > -abs(stepSize)) *)
    armPoll (fun e => e >? - Z.abs stepSize) power encoder 0.

(** [armStepDown()] and [armStepUp()] *)
Definition armStepDown (encoder : list Z) : ArmRun := armStep (-50) 100 encoder.
Definition armStepUp (encoder : list Z) : ArmRun := armStep 50 100 encoder.

(** ** Further functions of the header and their TeleOp callers *)

(** Replaying the spin commands of an event log on the motor registers. *)
Definition replay (m : Motors) (evs : list Event) : Motors :=
  fold_left (fun w e => match e with SpinCmd v => spin v w | _ => w end) evs m.

(** The number of calls of [turnToHeading] a log records: each call within
    the cap makes exactly one start read. *)
Definition attempts (evs : list Event) : nat :=
  length (filter (fun e => match e with ReadStart _ => true | _ => false end) evs).

(** The number of calls a run makes from [speed] on if every call stalls:
    speeds [speed], [speed+10], ... up to 100. *)
Definition attemptsLeft (speed : Z) : Z :=
  if speed >? 100 then 0 else (100 - speed) / 10 + 1.

(** [bool turnDegrees(int angle)]:
    [turnToHeading(HTMCreadHeading(sensorCompass)-angle);].
    The function has no [return] statement, so what its caller receives is not
    determined by the source; [result] is the value of the inner call.  The
    read made here is consumed from the compass and is not among the inner
    call's events. *)
Definition turnDegrees (angle : Z) (compass : list Z) (m : Motors) : TurnRun :=
  match compass with
  | [] => mkTurnRun Waiting m [] []
  | current :: compass' => turnToHeading (current - angle) 20 compass' m
  end.

(** The servo registers the header writes: [servo[servoCompass]],
    [servo[servoSweeper]], [servoMinPos[servoCompass]] and
    [servoMaxPos[servoCompass]]. *)
Record Servos : Set := mkServos
  { servoCompass : Z; servoSweeper : Z;
    servoMinPos_servoCompass : Z; servoMaxPos_servoCompass : Z }.

(** [compassHolderUp] and [compassHolderDown] are used by the header and
    defined elsewhere: they are parameters. *)
Record HolderPositions : Set := mkHolderPositions
  { compassHolderUp : Z; compassHolderDown : Z }.

(** [void compassSetup()] *)
Definition compassSetup (P : HolderPositions) (s : Servos) : Servos :=
  (* servoMinPos[servoCompass] = compassHolderUp; *)
  let s := mkServos (servoCompass s) (servoSweeper s) (compassHolderUp P)
             (servoMaxPos_servoCompass s) in
  (* servoMaxPos[servoCompass] = compassHolderDown; *)
  mkServos (servoCompass s) (servoSweeper s) (servoMinPos_servoCompass s)
    (compassHolderDown P).

(** [void compassUp()]: [servo[servoCompass] = compassHolderUp;] *)
Definition compassUp (P : HolderPositions) (s : Servos) : Servos :=
  mkServos (compassHolderUp P) (servoSweeper s) (servoMinPos_servoCompass s)
    (servoMaxPos_servoCompass s).

(** [void compassDown()]: [servo[servoCompass] = compassHolderUp;] *)
Definition compassDown (P : HolderPositions) (s : Servos) : Servos :=
  mkServos (compassHolderUp P) (servoSweeper s) (servoMinPos_servoCompass s)
    (servoMaxPos_servoCompass s).

Definition setSweeper (v : Z) (s : Servos) : Servos :=
  mkServos (servoCompass s) v (servoMinPos_servoCompass s) (servoMaxPos_servoCompass s).

(** [sweeperOn()], [sweeperOff()], [sweeperReverse()] *)
Definition sweeperOn (s : Servos) : Servos := setSweeper 255 s.
Definition sweeperOff (s : Servos) : Servos := setSweeper 128 s.
Definition sweeperReverse (s : Servos) : Servos := setSweeper 0 s.

(** [#define TopHat_Idle -1], [TopHat_Up 0], [TopHat_Down 4] *)
Definition TopHat_Idle : Z := -1.
Definition TopHat_Up : Z := 0.
Definition TopHat_Down : Z := 4.

(** What [armTask] reads of the second controller after
    [getJoystickSettings(joystick)]. *)
Record Joy2 : Set := mkJoy2
  { joy2Btn2 : bool; joy2Btn3 : bool; joy2Btn4 : bool;
    joy2Btn6 : bool; joy2Btn8 : bool; joy2_TopHat : Z }.

Record ArmTaskRun : Set := mkArmTaskRun
  { iteration : Completion unit;  (* whether the loop body ran to its end *)
    servosAfter : Servos;
    armMotorAfter : Z;            (* motor[motorArm] *)
    encoderAfter : list Z }.      (* encoder values not yet consumed *)

(** One pass through the body of [while (true)] in [task armTask()]. *)
Definition armTask_body (joy : Joy2) (encoder : list Z) (s : Servos) (arm : Z)
  : ArmTaskRun :=
  (* if (joy2Btn(2)) sweeperOn(); *)
  let s := if joy2Btn2 joy then sweeperOn s else s in
  (* if (joy2Btn(4)) sweeperReverse(); *)
  let s := if joy2Btn4 joy then sweeperReverse s else s in
  (* if (joy2Btn(3)) sweeperOff(); *)
  let s := if joy2Btn3 joy then sweeperOff s else s in
  (* if (joy2Btn(6)) armStepUp(); *)
  let up := if joy2Btn6 joy then armStepUp encoder
            else mkArmRun (Returned tt) arm 0 encoder in
  match finished up with
  | Waiting => mkArmTaskRun Waiting s (motorArm up) (encoderUnread up)
  | Returned _ =>
      (* if (joy2Btn(8)) armStepDown(); *)
      let down := if joy2Btn8 joy then armStepDown (encoderUnread up)
                  else mkArmRun (Returned tt) (motorArm up) 0 (encoderUnread up) in
      match finished down with
      | Waiting => mkArmTaskRun Waiting s (motorArm down) (encoderUnread down)
      | Returned _ =>
          let arm := motorArm down in
          (* if (joystick.joy2_TopHat == TopHat_Up) motor[motorArm] = 40; *)
          let arm := if joy2_TopHat joy =? TopHat_Up then 40 else arm in
          (* if (joystick.joy2_TopHat == TopHat_Down) motor[motorArm] = -40; *)
          let arm := if joy2_TopHat joy =? TopHat_Down then -40 else arm in
          (* if (joystick.joy2_TopHat == TopHat_Idle) motor[motorArm] = 0; *)
          let arm := if joy2_TopHat joy =? TopHat_Idle then 0 else arm in
          mkArmTaskRun (Returned tt) s arm (encoderUnread down)
      end
  end.

(** Comparisons of [float] values. *)
Definition Qgtb (x y : Q) : bool := negb (Qle_bool x y).
Definition Qltb (x y : Q) : bool := negb (Qle_bool y x).
Definition Qgeb (x y : Q) : bool := Qle_bool y x.

(** The mathematical built-ins the header and the TeleOp program call besides
    [cosDegrees] and [sinDegrees]: [atan], the constant [PI],
    [radiansToDegrees], [sqrt] and [pow].  They are parameters. *)
Record MathOps : Type := mkMathOps
  { atanF : Q -> Q;
    PI_F : Q;
    radiansToDegreesF : Q -> Q;
    sqrtF : Q -> Q;
    powF : Q -> Q -> Q }.

(** [float atan2(float xval, float yval)] of the header (the body spells the
    parameters [xVal] and [yVal]). *)
Definition atan2 (F : FloatOps) (M : MathOps) (xVal yVal : Q) : Q :=
  (* if (xVal > 0) return atan(yVal/xVal); *)
  if Qgtb xVal 0 then atanF M (roundF F (yVal / xVal))
  (* else if (yVal >= 0 && xVal < 0) return PI + atan(yVal/xVal); *)
  else if Qgeb yVal 0 && Qltb xVal 0
  then roundF F (PI_F M + atanF M (roundF F (yVal / xVal)))
  (* else if (yVal < 0 && xVal > 0) return -PI + atan(yVal/xVal); *)
  else if Qltb yVal 0 && Qgtb xVal 0
  then roundF F (- PI_F M + atanF M (roundF F (yVal / xVal)))
  (* else if (yVal > 0 && xVal == 0) return PI/2; *)
  else if Qgtb yVal 0 && Qeq_bool xVal 0 then roundF F (PI_F M / 2)
  (* else if (yVal < 0 && xVal == 0) return -PI/2; *)
  else if Qltb yVal 0 && Qeq_bool xVal 0 then roundF F (- PI_F M / 2)
  (* else return 0; *)
  else 0%Q.

(** [int getAngle()] of the TeleOp program:
    [return radiansToDegrees(atan2(x_val, y_val));] *)
Definition getAngle (F : FloatOps) (M : MathOps) (x_val y_val : Q) : Z :=
  truncate (radiansToDegreesF M (atan2 F M x_val y_val)).

(** What [drivingTask] reads of the first controller. *)
Record Joy1 : Set := mkJoy1 { joy1_x1 : Z; joy1_y1 : Z; joy1_x2 : Z }.

(** One pass through the body of [while (true)] in [task drivingTask()]. *)
Definition drivingTask_body (bUseLogarithmicScale : bool) (F : FloatOps) (M : MathOps)
  (joy : Joy1) (m : Motors) : Motors :=
  (* x_val = scaleJoystick(joystick.joy1_x1); *)
  let x_val := inject_Z (scaleJoystick_default bUseLogarithmicScale (joy1_x1 joy)) in
  (* y_val = scaleJoystick(joystick.joy1_y1); *)
  let y_val := inject_Z (scaleJoystick_default bUseLogarithmicScale (joy1_y1 joy)) in
  (* int speedMagnitude = (int)sqrt(pow(abs(x_val), 2) + pow(abs(y_val), 2)); *)
  let speedMagnitude :=
    truncate (sqrtF M (roundF F (powF M (Qabs x_val) 2 + powF M (Qabs y_val) 2))) in
  (* int speedDirection = getAngle(); *)
  let speedDirection := getAngle F M x_val y_val in
  (* if (x_val > 10 || x_val < -10 || y_val > 10 || y_val < -10) *)
  if Qgtb x_val 10 || Qltb x_val (-10) || Qgtb y_val 10 || Qltb y_val (-10)
  then moveRobot F (inject_Z speedMagnitude) (inject_Z speedDirection) m
  (* else if (joystick.joy1_x2 > 10 || joystick.joy1_x2 < -10) *)
  else if (joy1_x2 joy >? 10) || (joy1_x2 joy <? -10)
  then spin (scaleJoystick_default bUseLogarithmicScale (joy1_x2 joy)) m
  else spin 0 m.

(** An instance of the further built-ins for running the drive loop on
    concrete inputs whose square root is an integer: [pow] is the exact power
    for exponent 2, [sqrt] the integer square root of the truncated argument,
    [PI] is 355/113, [radiansToDegrees] multiplies by 180/[PI], and [atan] is
    0, its value at 0 (the instance is used only where the quotient is 0). *)
Definition axisMath : MathOps :=
  mkMathOps (fun _ => 0%Q) (355 # 113)%Q (fun q => q * (20340 # 355))%Q
    (fun q => inject_Z (Z.sqrt (truncate q))) (fun a _ => (a * a)%Q).

(** The servo functions of the header, as the operations of a program that
    calls them in any order. *)
Inductive ServoCall : Set :=
| CallCompassSetup | CallCompassUp | CallCompassDown
| CallSweeperOn | CallSweeperOff | CallSweeperReverse.

Definition servoCall (P : HolderPositions) (c : ServoCall) (s : Servos) : Servos :=
  match c with
  | CallCompassSetup => compassSetup P s
  | CallCompassUp => compassUp P s
  | CallCompassDown => compassDown P s
  | CallSweeperOn => sweeperOn s
  | CallSweeperOff => sweeperOff s
  | CallSweeperReverse => sweeperReverse s
  end.

Definition servoCalls (P : HolderPositions) (cs : list ServoCall) (s : Servos) : Servos :=
  fold_left (fun s c => servoCall P c s) cs s.

(** A run whose last hardware access is the start read or the wait of a loop
    iteration: if it has not returned, control is at the loop test and the
    next compass value will be polled. *)
Definition awaitsPoll (evs : list Event) : Prop :=
  exists evs' e, evs = evs' ++ [e] /\ (e = Wait10Msec \/ exists r, e = ReadStart r).

(** The same for a run that starts at a control point of its own: a run that
    has made no access yet is at the loop test if it started there. *)
Definition atLoop (pt : TurnPoint) (evs : list Event) : Prop :=
  (evs = [] /\ exists s last n, pt = AtLoopTest s last n) \/ awaitsPoll evs.

(** ** Checks on concrete inputs *)

Example scaleJoystick_full_forward : scaleJoystick true 127 100 = 100.
Proof. reflexivity. Qed.

Example scaleJoystick_full_reverse : scaleJoystick true (-128) 100 = -100.
Proof. reflexivity. Qed.

Example scaleJoystick_half_power : scaleJoystick true 100 50 = 33.
Proof. reflexivity. Qed.

Example scaleJoystick_linear_dead_band : scaleJoystick false 9 100 = 0.
Proof. reflexivity. Qed.

Example scaleJoystick_linear_mid : scaleJoystick false (-64) 100 = -50.
Proof. reflexivity. Qed.

Example cap100_examples : cap100 250 = 100 /\ cap100 (-250) = -100 /\ cap100 37 = 37.
Proof. repeat split. Qed.

(** ** Properties of the input shaper *)

(** A boolean check run over a range of integers holds at each of them. *)
Lemma Zrange_forallb (p : Z -> bool) (lo : Z) (n : nat) :
  forallb p (Zrange lo n) = true ->
  forall z, lo <= z < lo + Z.of_nat n -> p z = true.
Proof.
  intros Hall z Hz.
  rewrite forallb_forall in Hall. apply Hall.
  unfold Zrange. apply in_map_iff.
  exists (Z.to_nat (z - lo)). split; [lia|].
  apply in_seq. lia.
Qed.

(** Without a power limit the result is the curve value. *)
Lemma scaleJoystick_curve (b : bool) (y p : Z) :
  scaleJoystick b y p =
  if (p <? kMaximumPowerLevel) && (p >? 0)
  then Z.quot (curve b y * p) kMaximumPowerLevel
  else curve b y.
Proof. destruct b; reflexivity. Qed.

Lemma scaleJoystick_default_curve (b : bool) (y : Z) :
  scaleJoystick_default b y = curve b y.
Proof. unfold scaleJoystick_default. rewrite scaleJoystick_curve. reflexivity. Qed.

Lemma clampAxis_range (y : Z) : -127 <= clampAxis y <= 127.
Proof. unfold clampAxis. destruct (Z.ltb_spec y 0); lia. Qed.

Lemma clampAxis_id (y : Z) : -127 <= y <= 127 -> clampAxis y = y.
Proof. unfold clampAxis. destruct (Z.ltb_spec y 0); lia. Qed.

Lemma clampAxis_mono (a b : Z) : a <= b -> clampAxis a <= clampAxis b.
Proof.
  unfold clampAxis.
  destruct (Z.ltb_spec a 0), (Z.ltb_spec b 0); lia.
Qed.

Lemma clampAxis_opp (y : Z) : clampAxis (- y) = - clampAxis y.
Proof.
  unfold clampAxis.
  destruct (Z.ltb_spec (- y) 0), (Z.ltb_spec y 0); lia.
Qed.

(** The bucket index never leaves the table: the subscript of [nLogScale] is
    between 0 and 31. *)
Lemma logIndex_in_range (y : Z) :
  let q := Z.quot (clampAxis y) 4 in
  0 <= (if q >=? 0 then q else - q) <= 31.
Proof.
  cbv zeta. pose proof (clampAxis_range y) as Hc.
  destruct (Z.geb_spec (Z.quot (clampAxis y) 4) 0);
    Z.quot_rem_to_equations; lia.
Qed.

Lemma nLogScale_at_bounds (i : Z) : 0 <= i <= 32 -> 0 <= nLogScale_at i <= 100.
Proof.
  intros Hi.
  pose proof (Zrange_forallb
    (fun i => (0 <=? nLogScale_at i) && (nLogScale_at i <=? 100)) 0 33
    ltac:(vm_compute; reflexivity) i ltac:(lia)) as H.
  cbv beta in H. apply andb_prop in H. destruct H. lia.
Qed.

Lemma nLogScale_at_sorted (i j : Z) :
  0 <= i -> i <= j -> j <= 32 -> nLogScale_at i <= nLogScale_at j.
Proof.
  intros Hi Hij Hj.
  pose proof (Zrange_forallb
    (fun i => forallb (fun j => (j <? i) || (nLogScale_at i <=? nLogScale_at j))
                (Zrange 0 33)) 0 33
    ltac:(vm_compute; reflexivity) i ltac:(lia)) as H.
  cbv beta in H.
  pose proof (Zrange_forallb _ 0 33 H j ltac:(lia)) as Hj'.
  cbv beta in Hj'. apply orb_prop in Hj'. destruct Hj'; lia.
Qed.

Lemma nLogScale_at_live (i : Z) : 2 <= i <= 32 -> 6 <= nLogScale_at i.
Proof.
  intros Hi.
  pose proof (Zrange_forallb (fun i => 6 <=? nLogScale_at i) 2 31
    ltac:(vm_compute; reflexivity) i ltac:(lia)) as H.
  cbv beta in H. lia.
Qed.

Lemma logCurve_opp (q : Z) : logCurve (- q) = - logCurve q.
Proof.
  unfold logCurve.
  destruct (Z.geb_spec (- q) 0), (Z.geb_spec q 0); try lia.
  - assert (q = 0) by lia. subst q. reflexivity.
  - rewrite Z.opp_involutive. reflexivity.
Qed.

Lemma logCurve_mono (p q : Z) : -32 <= p -> p <= q -> q <= 32 -> logCurve p <= logCurve q.
Proof.
  intros Hp Hpq Hq. unfold logCurve.
  destruct (Z.geb_spec p 0), (Z.geb_spec q 0); try lia.
  - apply nLogScale_at_sorted; lia.
  - pose proof (nLogScale_at_bounds (- p) ltac:(lia)).
    pose proof (nLogScale_at_bounds q ltac:(lia)). lia.
  - pose proof (nLogScale_at_sorted (- q) (- p) ltac:(lia) ltac:(lia) ltac:(lia)). lia.
Qed.

Lemma curve_bounds (b : bool) (y : Z) : -100 <= curve b y <= 100.
Proof.
  pose proof (clampAxis_range y) as Hc. unfold curve. destruct b.
  - pose proof (logIndex_in_range y) as Hi. cbv zeta in Hi. unfold logCurve.
    destruct (Z.geb_spec (Z.quot (clampAxis y) 4) 0).
    + pose proof (nLogScale_at_bounds (Z.quot (clampAxis y) 4) ltac:(lia)). lia.
    + pose proof (nLogScale_at_bounds (- Z.quot (clampAxis y) 4) ltac:(lia)). lia.
  - unfold linearCurve. destruct (Z.ltb_spec (Z.abs (clampAxis y)) 10); [lia|].
    Z.quot_rem_to_equations. lia.
Qed.

(** The two products [scaleJoystick] forms, [yScaled * 100] in the linear
    curve and [yScaled * nMaxPower] under a power limit, fit 16 bits. *)
Lemma scaleJoystick_products_fit (b : bool) (y p : Z) :
  fits_int16 (clampAxis y * 100) /\
  (0 < p < kMaximumPowerLevel -> fits_int16 (curve b y * p)).
Proof.
  pose proof (clampAxis_range y). pose proof (curve_bounds b y).
  unfold fits_int16, kMaximumPowerLevel. split; [lia | nia].
Qed.

(** Scaling a curve value by a power limit in (0,100) keeps it within the
    limit. *)
Lemma limit_top_end (c p : Z) :
  -100 <= c <= 100 -> 0 < p -> Z.abs (Z.quot (c * p) kMaximumPowerLevel) <= p.
Proof.
  intros Hc Hp. unfold kMaximumPowerLevel.
  rewrite <- (Z.quot_abs (c * p) 100) by lia.
  rewrite Z.abs_mul. change (Z.abs 100) with 100.
  apply Z.quot_le_upper_bound; [lia|]. nia.
Qed.

(** C7.  For every raw axis reading in [-128,127] and either curve: with
    [maxPower] in (0,100] the result of [scaleJoystick] has magnitude at most
    [maxPower]; with [maxPower] outside (0,100] the limit is ignored and the
    result is the one for [maxPower = 100], the plain curve value. *)
Theorem scaleJoystick_max_power (b : bool) (raw maxPower : Z) :
  -128 <= raw <= 127 ->
  (0 < maxPower <= 100 -> Z.abs (scaleJoystick b raw maxPower) <= maxPower) /\
  (~ (0 < maxPower <= 100) ->
   scaleJoystick b raw maxPower = scaleJoystick b raw 100 /\
   scaleJoystick b raw maxPower = curve b raw).
Proof.
  intros _. pose proof (curve_bounds b raw) as Hc.
  rewrite !scaleJoystick_curve.
  change ((100 <? kMaximumPowerLevel) && (100 >? 0)) with false.
  cbv iota. split.
  - intros Hp.
    destruct (Z.ltb_spec maxPower kMaximumPowerLevel), (Z.gtb_spec maxPower 0);
      cbn [andb]; try lia.
    + apply limit_top_end; lia.
    + unfold kMaximumPowerLevel in *. lia.
  - intros Hp. unfold kMaximumPowerLevel at 1 3.
    destruct (Z.ltb_spec maxPower 100), (Z.gtb_spec maxPower 0); cbn [andb];
      try lia; split; reflexivity.
Qed.

Lemma scaleJoystick_max_power_witness :
  (0 < 40 <= 100 -> Z.abs (scaleJoystick true (-128) 40) <= 40) /\
  (~ (0 < 40 <= 100) ->
   scaleJoystick true (-128) 40 = scaleJoystick true (-128) 100 /\
   scaleJoystick true (-128) 40 = curve true (-128)).
Proof. apply (scaleJoystick_max_power true (-128) 40). lia. Defined.

Example scaleJoystick_bad_power_ignored :
  scaleJoystick false 90 250 = 70 /\ scaleJoystick false 90 0 = 70 /\
  scaleJoystick false 90 (-3) = 70 /\ scaleJoystick false 90 100 = 70.
Proof. repeat split. Qed.

(** C8.  With the logarithmic curve and the default maximum power,
    [scaleJoystick] is monotonic non-decreasing over the raw readings in
    [-127,127], and negating the reading negates the result. *)
Theorem scaleJoystick_log_monotone_odd (a b raw : Z) :
  -127 <= a -> a <= b -> b <= 127 -> -127 <= raw <= 127 ->
  scaleJoystick_default true a <= scaleJoystick_default true b /\
  scaleJoystick_default true (- raw) = - scaleJoystick_default true raw.
Proof.
  intros Ha Hab Hb _.
  rewrite (scaleJoystick_default_curve true a), (scaleJoystick_default_curve true b),
    (scaleJoystick_default_curve true (- raw)), (scaleJoystick_default_curve true raw).
  unfold curve. split.
  - rewrite (clampAxis_id a), (clampAxis_id b) by lia.
    apply logCurve_mono.
    + Z.quot_rem_to_equations. lia.
    + apply Z.quot_le_mono; lia.
    + Z.quot_rem_to_equations. lia.
  - rewrite clampAxis_opp, Z.quot_opp_l by lia. apply logCurve_opp.
Qed.

Lemma scaleJoystick_log_monotone_odd_witness :
  scaleJoystick_default true (-60) <= scaleJoystick_default true 90 /\
  scaleJoystick_default true (- 53) = - scaleJoystick_default true 53.
Proof. apply (scaleJoystick_log_monotone_odd (-60) 90 53); lia. Defined.

(** C10.  The logarithmic curve has a dead band of its own: a raw reading
    with [|raw| <= 7] falls in bucket 0 or 1, whose table entries are 0, so
    the result is exactly 0 (whatever the power limit), and with the default
    power these are the only readings mapped to 0.  The linear curve maps
    exactly the readings with [|raw| < 10] to 0. *)
Theorem scaleJoystick_log_dead_band (raw : Z) :
  (Z.abs raw <= 7 -> forall maxPower, scaleJoystick true raw maxPower = 0) /\
  (scaleJoystick_default true raw = 0 <-> Z.abs raw <= 7) /\
  (scaleJoystick_default false raw = 0 <-> Z.abs raw < 10).
Proof.
  assert (Hlog : curve true raw = 0 <-> Z.abs raw <= 7).
  { unfold curve, logCurve, clampAxis. split.
    - intros H0.
      destruct (Z.le_gt_cases (Z.abs raw) 7) as [|Hbig]; [assumption|exfalso].
      destruct (Z.ltb_spec raw 0);
        match type of H0 with context [Z.quot ?y 4] =>
          destruct (Z.geb_spec (Z.quot y 4) 0) as [Hq|Hq];
          [ pose proof (nLogScale_at_live (Z.quot y 4)) as Hl
          | pose proof (nLogScale_at_live (- Z.quot y 4)) as Hl ];
          revert H0 Hq Hl; Z.quot_rem_to_equations; lia
        end.
    - intros Hs.
      assert (Hq : Z.quot (if raw <? 0 then Z.max raw (-127) else Z.min raw 127) 4 = 0
                   \/ Z.quot (if raw <? 0 then Z.max raw (-127) else Z.min raw 127) 4 = 1
                   \/ Z.quot (if raw <? 0 then Z.max raw (-127) else Z.min raw 127) 4 = -1).
      { destruct (Z.ltb_spec raw 0); Z.quot_rem_to_equations; lia. }
      destruct Hq as [-> | [-> | ->]]; reflexivity. }
  split; [|split].
  - intros Hs maxPower. rewrite scaleJoystick_curve.
    apply Hlog in Hs. rewrite Hs.
    destruct ((maxPower <? kMaximumPowerLevel) && (maxPower >? 0)); reflexivity.
  - rewrite scaleJoystick_default_curve. exact Hlog.
  - rewrite scaleJoystick_default_curve. unfold curve, linearCurve, clampAxis.
    destruct (Z.ltb_spec raw 0);
      match goal with |- context [Z.abs ?y <? 10] =>
        destruct (Z.ltb_spec (Z.abs y) 10)
      end; (split; [intros Hzero | intros Hsmall]); try lia;
      revert Hzero; Z.quot_rem_to_equations; lia.
Qed.

Lemma scaleJoystick_log_dead_band_witness :
  (Z.abs (-7) <= 7 -> forall maxPower, scaleJoystick true (-7) maxPower = 0) /\
  (scaleJoystick_default true (-7) = 0 <-> Z.abs (-7) <= 7) /\
  (scaleJoystick_default false (-7) = 0 <-> Z.abs (-7) < 10).
Proof. exact (scaleJoystick_log_dead_band (-7)). Defined.

Example dead_band_edges :
  scaleJoystick_default true 7 = 0 /\ scaleJoystick_default true 8 = 6 /\
  scaleJoystick_default true (-8) = -6 /\
  scaleJoystick_default false 9 = 0 /\ scaleJoystick_default false 10 = 7.
Proof. repeat split. Qed.

(** ** Properties of [cap100] and [spin] *)

Lemma cap100_range (v : Z) : -100 <= cap100 v <= 100.
Proof. unfold cap100. destruct (Z.gtb_spec v 0); lia. Qed.

Lemma cap100_id_iff (v : Z) : cap100 v = v <-> -100 <= v <= 100.
Proof. unfold cap100. destruct (Z.gtb_spec v 0); lia. Qed.

(** [spin] overwrites all four registers, whatever they held. *)
Lemma spin_all (s : Z) (m : Motors) : spin s m = mkMotors s s s s.
Proof. reflexivity. Qed.

(** C3, as amended.  For every integer [s], [spin(s)] sets all four wheel
    motors to the identical value [s] itself: [spin] does not clamp.  The
    value written is [cap100 s] exactly when [s] is in [-100,100], the range
    the header documents for the argument. *)
Theorem spin_writes_speed (s : Z) (m : Motors) :
  motorNW (spin s m) = s /\ motorNE (spin s m) = s /\
  motorSE (spin s m) = s /\ motorSW (spin s m) = s /\
  (spin s m = mkMotors (cap100 s) (cap100 s) (cap100 s) (cap100 s)
   <-> -100 <= s <= 100).
Proof.
  rewrite spin_all. cbn [motorNW motorNE motorSE motorSW].
  do 4 (split; [reflexivity|]).
  rewrite <- cap100_id_iff. split.
  - intros Heq. injection Heq as Heq _ _ _. congruence.
  - intros Heq. rewrite Heq. reflexivity.
Qed.

(** C3, as stated, fails: [spin(150)] writes 150 to every wheel, while
    [cap100(150)] is 100. *)
Lemma spin_150_not_capped :
  spin 150 stopped = mkMotors 150 150 150 150 /\
  cap100 150 = 100 /\
  motorNW (spin 150 stopped) <> cap100 150 /\
  motorNE (spin 150 stopped) <> cap100 150 /\
  motorSE (spin 150 stopped) <> cap100 150 /\
  motorSW (spin 150 stopped) <> cap100 150.
Proof. repeat split; discriminate. Qed.

(** ** Properties of [turnToHeading] *)

Lemma emit_emit (a b : list Event) (r : TurnRun) :
  emit a (emit b r) = emit (a ++ b) r.
Proof. unfold emit. cbn. rewrite app_assoc. reflexivity. Qed.

Lemma emit_nil (r : TurnRun) : emit [] r = r.
Proof. destruct r. reflexivity. Qed.

Lemma turnToHeading_gives_up
  (heading speed : Z) (compass : list Z) (m : Motors) :
  100 < speed ->
  turnToHeading heading speed compass m = mkTurnRun (Returned false) m compass [].
Proof.
  intros Hs. unfold turnToHeading.
  destruct compass; cbn [turnFrom];
    destruct (Z.gtb_spec speed 100); try lia; reflexivity.
Qed.

(** C2.  For every target heading and every speed above 100,
    [turnToHeading] returns [false] at once: no compass value is consumed, no
    hardware access is made (no read, no [spin], no wait), and the motor
    registers are as they were. *)
Theorem turnToHeading_speed_over_cap
  (heading speed : Z) (compass : list Z) (m : Motors) :
  speed > 100 ->
  turnToHeading heading speed compass m = mkTurnRun (Returned false) m compass [].
Proof.
  intros Hs. apply turnToHeading_gives_up. lia.
Qed.

Lemma turnToHeading_speed_over_cap_witness :
  turnToHeading 90 110 [10; 20; 90] (mkMotors 7 7 7 7)
  = mkTurnRun (Returned false) (mkMotors 7 7 7 7) [10; 20; 90] [].
Proof. apply (turnToHeading_speed_over_cap 90 110). lia. Defined.

(** For a compass heading the product [20*heading] fits 16 bits. *)
Lemma spin_command_fits (heading : Z) :
  0 <= heading < 360 -> fits_int16 (20 * heading).
Proof. unfold fits_int16. lia. Qed.

(** One loop iteration that reads a value other than the target. *)
Lemma turnFrom_poll (heading speed last n cur : Z) (compass : list Z) (m : Motors) :
  cur <> heading ->
  turnFrom heading (AtLoopTest speed last n) (cur :: compass) m =
  let n' := if cur =? last then n + 1 else 0 in
  if n' >? 5
  then emit [ReadPoll cur; SpinCmd (20 * heading); Wait10Msec; SpinCmd 0]
         (turnToHeading heading (speed + 10) compass stopped)
  else emit [ReadPoll cur; SpinCmd (20 * heading); Wait10Msec]
         (turnFrom heading (AtLoopTest speed cur n') compass
            (mkMotors (20 * heading) (20 * heading) (20 * heading) (20 * heading))).
Proof.
  intros Hne. cbn [turnFrom].
  destruct (Z.eqb_spec heading cur) as [Heq|_]; [congruence|].
  reflexivity.
Qed.

(** One loop iteration that reads the target. *)
Lemma turnFrom_reached (heading speed last n : Z) (compass : list Z) (m : Motors) :
  turnFrom heading (AtLoopTest speed last n) (heading :: compass) m =
  mkTurnRun (Returned true) m compass [ReadPoll heading].
Proof. cbn [turnFrom]. rewrite Z.eqb_refl. reflexivity. Qed.

(** The start of a call whose speed is within the cap. *)
Lemma turnToHeading_start (heading speed start : Z) (compass : list Z) (m : Motors) :
  speed <= 100 ->
  turnToHeading heading speed (start :: compass) m =
  emit [ReadStart start] (turnFrom heading (AtLoopTest speed start 0) compass m).
Proof.
  intros Hs. unfold turnToHeading. cbn [turnFrom].
  destruct (Z.gtb_spec speed 100); [lia | reflexivity].
Qed.

(** Stall detection from any point of the loop: with [numReadings] repeats
    counted so far, [k] further polls that repeat [lastReading] bring the
    count to 6, and the call stops the wheels and starts over ten faster. *)
Lemma turnFrom_stall (heading speed last : Z) (k : nat) :
  last <> heading ->
  forall (n : Z) (compass : list Z) (m : Motors),
  0 <= n -> n + Z.of_nat k = 6 -> (1 <= k)%nat ->
  turnFrom heading (AtLoopTest speed last n) (repeat last k ++ compass) m =
  emit (stalledPolls heading last k ++ [SpinCmd 0])
    (turnToHeading heading (speed + 10) compass stopped).
Proof.
  intros Hne. induction k as [|k IH]; intros n compass m Hn Hk Hpos; [lia|].
  cbn [repeat app]. rewrite turnFrom_poll by assumption. cbv zeta.
  rewrite Z.eqb_refl.
  destruct (Z.gtb_spec (n + 1) 5) as [Hgt|Hle].
  - assert (k = 0%nat) by lia. subst k. reflexivity.
  - rewrite IH by lia. rewrite emit_emit. reflexivity.
Qed.

(** A call within the cap whose compass is frozen: start read, six polls,
    [spin(0)], then the retry. *)
Lemma turnToHeading_frozen (heading speed r : Z) (compass : list Z) (m : Motors) :
  r <> heading -> speed <= 100 ->
  turnToHeading heading speed (frozen r ++ compass) m =
  emit (stallEvents heading r) (turnToHeading heading (speed + 10) compass stopped).
Proof.
  intros Hne Hs. unfold frozen. cbn [repeat app].
  rewrite turnToHeading_start by assumption.
  change (r :: r :: r :: r :: r :: r :: compass) with (repeat r 6 ++ compass).
  rewrite (turnFrom_stall heading speed r 6 Hne 0) by lia.
  rewrite emit_emit. reflexivity.
Qed.

(** C1.  Stall handling of [turnToHeading], for every target and every
    continuation of the compass trace.
    (a) From any point of the aligning loop, once the polls that repeat the
        previous reading (which is not the target) bring the count above 5,
        the call issues [spin(0)] and continues as one fresh call
        [turnToHeading(heading, speed + 10)] with the same target.
    (b) In particular a call within the cap whose compass stays frozen for
        its start read and six polls does exactly that.
    (c) From base speed 60, five such stalls in a row (speeds 60, 70, 80, 90,
        100) reach speed 110 and the call returns [false], wheels stopped. *)
Theorem turnToHeading_stall_escalation
  (heading speed lastReading numReadings : Z) (k : nat)
  (r1 r2 r3 r4 r5 : Z) (compass : list Z) (m : Motors) :
  lastReading <> heading ->
  0 <= numReadings -> numReadings + Z.of_nat k = 6 -> (1 <= k)%nat ->
  speed <= 100 ->
  r1 <> heading -> r2 <> heading -> r3 <> heading -> r4 <> heading ->
  r5 <> heading ->
  turnFrom heading (AtLoopTest speed lastReading numReadings)
    (repeat lastReading k ++ compass) m
  = emit (stalledPolls heading lastReading k ++ [SpinCmd 0])
      (turnToHeading heading (speed + 10) compass stopped)
  /\
  turnToHeading heading speed (frozen lastReading ++ compass) m
  = emit (stallEvents heading lastReading)
      (turnToHeading heading (speed + 10) compass stopped)
  /\
  turnToHeading heading 60
    (frozen r1 ++ frozen r2 ++ frozen r3 ++ frozen r4 ++ frozen r5 ++ compass) m
  = mkTurnRun (Returned false) stopped compass
      (stallEvents heading r1 ++ stallEvents heading r2 ++ stallEvents heading r3
       ++ stallEvents heading r4 ++ stallEvents heading r5).
Proof.
  intros Hlast Hn Hk Hpos Hs H1 H2 H3 H4 H5. split; [|split].
  - apply turnFrom_stall; assumption.
  - apply turnToHeading_frozen; assumption.
  - rewrite (turnToHeading_frozen heading 60 r1) by (assumption || lia).
    rewrite (turnToHeading_frozen heading (60 + 10) r2) by (assumption || lia).
    rewrite (turnToHeading_frozen heading (60 + 10 + 10) r3) by (assumption || lia).
    rewrite (turnToHeading_frozen heading (60 + 10 + 10 + 10) r4) by (assumption || lia).
    rewrite (turnToHeading_frozen heading (60 + 10 + 10 + 10 + 10) r5)
      by (assumption || lia).
    rewrite turnToHeading_gives_up by lia.
    rewrite !emit_emit. unfold emit. cbn [result wheels unread events].
    rewrite !app_nil_r, <- !app_assoc. reflexivity.
Qed.

Lemma turnToHeading_stall_escalation_witness :
  turnFrom 90 (AtLoopTest 20 10 2) (repeat 10 4 ++ [90]) stopped
  = emit (stalledPolls 90 10 4 ++ [SpinCmd 0]) (turnToHeading 90 (20 + 10) [90] stopped)
  /\
  turnToHeading 90 20 (frozen 10 ++ [90]) stopped
  = emit (stallEvents 90 10) (turnToHeading 90 (20 + 10) [90] stopped)
  /\
  turnToHeading 90 60
    (frozen 10 ++ frozen 20 ++ frozen 30 ++ frozen 40 ++ frozen 50 ++ [90]) stopped
  = mkTurnRun (Returned false) stopped [90]
      (stallEvents 90 10 ++ stallEvents 90 20 ++ stallEvents 90 30
       ++ stallEvents 90 40 ++ stallEvents 90 50).
Proof.
  apply (turnToHeading_stall_escalation 90 20 10 2 4 10 20 30 40 50 [90] stopped);
    lia.
Defined.

(** Five repeats are not yet a stall: a compass that shows 10 for the start
    read and five polls and then the target lets the call return [true]
    without any [spin(0)]; four stalls from speed 60 followed by the target
    still succeed. *)
Example five_repeats_no_stall :
  let run := turnToHeading 90 20 (repeat 10 6 ++ [90]) stopped in
  result run = Returned true /\ ~ In 0 (spins (events run)).
Proof. vm_compute. split; [reflexivity | intuition discriminate]. Qed.

Example four_stalls_then_target :
  result (turnToHeading 90 60
            (frozen 10 ++ frozen 20 ++ frozen 30 ++ frozen 40 ++ [50; 90]) stopped)
  = Returned true.
Proof. reflexivity. Qed.

(** Every poll of a value other than the target is followed at once by
    [spin(20*heading)] and the 10 ms wait, from any control point. *)
Lemma turnFrom_poll_then_spin (heading : Z) (compass : list Z) :
  forall (pt : TurnPoint) (m : Motors) (pre post : list Event) (r : Z),
  events (turnFrom heading pt compass m) = pre ++ ReadPoll r :: post ->
  r <> heading ->
  exists post', post = SpinCmd (20 * heading) :: Wait10Msec :: post'.
Proof.
  induction compass as [|cur compass IH]; intros pt m pre post r Hev Hne.
  - destruct pt as [speed|speed last n]; cbn in Hev;
      [destruct (speed >? 100)|]; destruct pre; discriminate.
  - destruct pt as [speed|speed last n].
    + cbn [turnFrom] in Hev. destruct (speed >? 100).
      * destruct pre; discriminate.
      * cbn in Hev. destruct pre as [|e pre]; [discriminate|].
        injection Hev as _ Hev. eapply IH; eassumption.
    + destruct (Z.eq_dec cur heading) as [->|Hcur].
      * rewrite turnFrom_reached in Hev. cbn in Hev.
        destruct pre as [|e pre].
        -- injection Hev as Hr _. congruence.
        -- injection Hev as _ Hev. destruct pre; discriminate.
      * rewrite turnFrom_poll in Hev by assumption. cbv zeta in Hev.
        destruct ((if cur =? last then n + 1 else 0) >? 5); cbn in Hev.
        -- destruct pre as [|e0 pre]; [injection Hev as _ <-; eauto|].
           injection Hev as _ Hev.
           do 3 (destruct pre as [|? pre]; [discriminate|]; injection Hev as _ Hev).
           eapply IH; eassumption.
        -- destruct pre as [|e0 pre]; [injection Hev as _ <-; eauto|].
           injection Hev as _ Hev.
           do 2 (destruct pre as [|? pre]; [discriminate|]; injection Hev as _ Hev).
           eapply IH; eassumption.
Qed.

(** The only spin commands a call issues are [20*heading] and 0. *)
Lemma turnFrom_spins (heading : Z) (compass : list Z) :
  forall (pt : TurnPoint) (m : Motors) (v : Z),
  In v (spins (events (turnFrom heading pt compass m))) ->
  v = 20 * heading \/ v = 0.
Proof.
  induction compass as [|cur compass IH]; intros pt m v Hin.
  - destruct pt as [speed|speed last n]; cbn in Hin;
      [destruct (speed >? 100)|]; contradiction.
  - destruct pt as [speed|speed last n].
    + cbn [turnFrom] in Hin. destruct (speed >? 100); [contradiction|].
      cbn in Hin. eapply IH; eassumption.
    + destruct (Z.eq_dec cur heading) as [->|Hcur].
      * rewrite turnFrom_reached in Hin. contradiction.
      * rewrite turnFrom_poll in Hin by assumption. cbv zeta in Hin.
        destruct ((if cur =? last then n + 1 else 0) >? 5); cbn in Hin.
        -- destruct Hin as [<-|[<-|Hin]]; [tauto | tauto | eapply IH; eassumption].
        -- destruct Hin as [<-|Hin]; [tauto | eapply IH; eassumption].
Qed.

(** C4.  For every target heading, every loop iteration of [turnToHeading]
    that polls a value other than the target commands [spin(20 * heading)]:
    the poll is followed at once by that command (and the wait), all four
    wheels receive [20 * heading], a value computed from the target alone,
    not from the poll or the start reading, and apart from the [spin(0)] of a
    stall no other spin value is ever commanded. *)
Theorem turnToHeading_spins_20_times_target
  (heading speed : Z) (compass : list Z) (m : Motors) :
  (forall (pre post : list Event) (r : Z),
     events (turnToHeading heading speed compass m) = pre ++ ReadPoll r :: post ->
     r <> heading ->
     exists post', post = SpinCmd (20 * heading) :: Wait10Msec :: post') /\
  (forall v, In v (spins (events (turnToHeading heading speed compass m))) ->
     v = 20 * heading \/ v = 0) /\
  (forall (s last n cur : Z) (rest : list Z), cur <> heading ->
     exists evs,
       events (turnFrom heading (AtLoopTest s last n) (cur :: rest) m)
       = ReadPoll cur :: SpinCmd (20 * heading) :: Wait10Msec :: evs) /\
  spin (20 * heading) m
  = mkMotors (20 * heading) (20 * heading) (20 * heading) (20 * heading).
Proof.
  split; [|split; [|split]].
  - intros pre post r. apply turnFrom_poll_then_spin.
  - intros v. apply turnFrom_spins.
  - intros s last n cur rest Hne. rewrite turnFrom_poll by assumption. cbv zeta.
    destruct ((if cur =? last then n + 1 else 0) >? 5); cbn; eauto.
  - reflexivity.
Qed.

Lemma turnToHeading_spins_20_times_target_witness :
  exists post',
    [SpinCmd 1800; Wait10Msec; ReadPoll 90]
    = SpinCmd (20 * 90) :: Wait10Msec :: post'.
Proof.
  refine (proj1 (turnToHeading_spins_20_times_target 90 20 [10; 30; 90] stopped)
            [ReadStart 10] _ 30 _ _).
  - reflexivity.
  - discriminate.
Defined.

(** The compass values a call reads, in order, followed by those it leaves
    unread, are the values it was given. *)
Lemma turnFrom_reads (heading : Z) (compass : list Z) :
  forall (pt : TurnPoint) (m : Motors),
  let run := turnFrom heading pt compass m in
  reads (events run) ++ unread run = compass.
Proof.
  cbv zeta.
  induction compass as [|cur compass IH]; intros pt m.
  - destruct pt as [speed|speed last n]; cbn; [destruct (speed >? 100)|]; reflexivity.
  - destruct pt as [speed|speed last n].
    + cbn [turnFrom]. destruct (speed >? 100); [reflexivity|].
      cbn. f_equal. apply IH.
    + destruct (Z.eq_dec cur heading) as [->|Hcur].
      * rewrite turnFrom_reached. reflexivity.
      * rewrite turnFrom_poll by assumption. cbv zeta.
        destruct ((if cur =? last then n + 1 else 0) >? 5); cbn; f_equal; apply IH.
Qed.

Lemma polled_in_reads (evs : list Event) (v : Z) : In v (polled evs) -> In v (reads evs).
Proof.
  induction evs as [|e evs IH]; [intros []|].
  destruct e; cbn; intros Hin; auto.
  - destruct Hin; auto.
Qed.

(** The call returns [true] exactly when one of its polls read the target. *)
Lemma turnFrom_true_iff (heading : Z) (compass : list Z) :
  forall (pt : TurnPoint) (m : Motors),
  result (turnFrom heading pt compass m) = Returned true
  <-> In heading (polled (events (turnFrom heading pt compass m))).
Proof.
  induction compass as [|cur compass IH]; intros pt m.
  - destruct pt as [speed|speed last n]; cbn; [destruct (speed >? 100)|];
      cbn; split; (discriminate || contradiction).
  - destruct pt as [speed|speed last n].
    + cbn [turnFrom]. destruct (speed >? 100).
      * cbn. split; (discriminate || contradiction).
      * cbn. apply IH.
    + destruct (Z.eq_dec cur heading) as [->|Hcur].
      * rewrite turnFrom_reached. cbn. tauto.
      * rewrite turnFrom_poll by assumption. cbv zeta.
        destruct ((if cur =? last then n + 1 else 0) >? 5); cbn;
          unfold turnToHeading; rewrite IH; intuition congruence.
Qed.

(** When the call returns [true], the target is the last value it read. *)
Lemma turnFrom_true_last (heading : Z) (compass : list Z) :
  forall (pt : TurnPoint) (m : Motors),
  result (turnFrom heading pt compass m) = Returned true ->
  exists before, compass = before ++ heading :: unread (turnFrom heading pt compass m).
Proof.
  induction compass as [|cur compass IH]; intros pt m Htrue.
  - destruct pt as [s|s last n]; cbn in Htrue; [destruct (s >? 100)|];
      discriminate.
  - destruct pt as [s|s last n].
    + cbn [turnFrom] in *. destruct (s >? 100); [discriminate|].
      cbn in *. destruct (IH _ _ Htrue) as [before Hb].
      exists (cur :: before). cbn. f_equal. exact Hb.
    + destruct (Z.eq_dec cur heading) as [->|Hcur].
      * rewrite turnFrom_reached. exists []. reflexivity.
      * rewrite turnFrom_poll in * by assumption. cbv zeta in *.
        destruct ((if cur =? last then n + 1 else 0) >? 5); cbn in *;
          destruct (IH _ _ Htrue) as [before Hb];
          exists (cur :: before); cbn; f_equal; exact Hb.
Qed.

Lemma awaitsPoll_tail (a b : list Event) :
  b <> [] -> awaitsPoll (a ++ b) -> awaitsPoll b.
Proof.
  intros Hb (evs & e & Heq & He).
  destruct (exists_last Hb) as (b' & x & ->).
  rewrite app_assoc in Heq. apply app_inj_tail in Heq. destruct Heq as [_ ->].
  exists b', e. split; [reflexivity | exact He].
Qed.

Lemma awaitsPoll_prepend (a b : list Event) : awaitsPoll b -> awaitsPoll (a ++ b).
Proof.
  intros (evs & e & -> & He). exists (a ++ evs), e.
  split; [apply app_assoc | exact He].
Qed.

Lemma awaitsPoll_nil : ~ awaitsPoll [].
Proof. intros (evs & e & Heq & _). destruct evs; discriminate. Qed.

(** What is logged before a run continues from [pt'] decides whether the
    whole run is at the loop test: the continuation's own log if it has one,
    else the last access logged before it. *)
Lemma atLoop_continue (pre : list Event) (pt pt' : TurnPoint) (evs : list Event) :
  pre <> [] ->
  (awaitsPoll pre <-> exists s last n, pt' = AtLoopTest s last n) ->
  (atLoop pt (pre ++ evs) <-> atLoop pt' evs).
Proof.
  intros Hpre Hlast. unfold atLoop. split.
  - intros [[Hnil _] | Haw].
    + destruct pre; [congruence | discriminate].
    + destruct evs as [|e evs].
      * rewrite app_nil_r in Haw. left. split; [reflexivity | apply Hlast, Haw].
      * right. apply (awaitsPoll_tail pre); [discriminate | exact Haw].
  - intros [[-> Hpt] | Haw]; right.
    + rewrite app_nil_r. apply Hlast, Hpt.
    + apply awaitsPoll_prepend, Haw.
Qed.

Lemma awaitsPoll_iteration (cur h : Z) :
  awaitsPoll [ReadPoll cur; SpinCmd h; Wait10Msec].
Proof. exists [ReadPoll cur; SpinCmd h], Wait10Msec. split; [reflexivity | auto]. Qed.

Lemma awaitsPoll_stalled (cur h : Z) :
  ~ awaitsPoll [ReadPoll cur; SpinCmd h; Wait10Msec; SpinCmd 0].
Proof.
  intros (evs & e & Heq & He).
  change [ReadPoll cur; SpinCmd h; Wait10Msec; SpinCmd 0]
    with ([ReadPoll cur; SpinCmd h; Wait10Msec] ++ [SpinCmd 0]) in Heq.
  apply app_inj_tail in Heq. destruct Heq as [_ <-].
  destruct He as [He | [r He]]; discriminate.
Qed.

(** How the log of one step of [turnFrom] relates "at the loop test" before
    and after it. *)
Lemma atLoop_after_start (s cur : Z) (evs : list Event) :
  atLoop (AtEntry s) (ReadStart cur :: evs) <-> atLoop (AtLoopTest s cur 0) evs.
Proof.
  apply (atLoop_continue [ReadStart cur]); [discriminate|].
  split; [eauto|]. intros _. exists [], (ReadStart cur). split; [reflexivity | eauto].
Qed.

Lemma atLoop_after_iteration (pt : TurnPoint) (s cur n h : Z) (evs : list Event) :
  atLoop pt ([ReadPoll cur; SpinCmd h; Wait10Msec] ++ evs)
  <-> atLoop (AtLoopTest s cur n) evs.
Proof.
  apply atLoop_continue; [discriminate|].
  split; [eauto | intros _; apply awaitsPoll_iteration].
Qed.

Lemma atLoop_after_stall (pt : TurnPoint) (s cur h : Z) (evs : list Event) :
  atLoop pt ([ReadPoll cur; SpinCmd h; Wait10Msec; SpinCmd 0] ++ evs)
  <-> atLoop (AtEntry s) evs.
Proof.
  apply atLoop_continue; [discriminate|].
  split.
  - intros Haw. exfalso. exact (awaitsPoll_stalled cur h Haw).
  - intros (s' & last & n & Hpt). discriminate.
Qed.

(** A run that is waiting at the loop test returns [true] at once when the
    next compass value is the target. *)
Lemma turnFrom_then_target (heading : Z) (before : list Z) :
  forall (pt : TurnPoint) (m : Motors) (rest : list Z),
  result (turnFrom heading pt before m) = Waiting ->
  atLoop pt (events (turnFrom heading pt before m)) ->
  turnFrom heading pt (before ++ heading :: rest) m
  = mkTurnRun (Returned true) (wheels (turnFrom heading pt before m)) rest
      (events (turnFrom heading pt before m) ++ [ReadPoll heading]).
Proof.
  induction before as [|cur before IH]; intros pt m rest Hwait Hloop.
  - destruct pt as [s|s last n].
    + exfalso. cbn [turnFrom] in Hwait, Hloop. destruct (s >? 100); [discriminate|].
      cbn in Hloop. destruct Hloop as [[_ (s' & l' & n' & Hpt)] | Haw];
        [discriminate | exact (awaitsPoll_nil Haw)].
    + cbn [app]. rewrite turnFrom_reached. reflexivity.
  - cbn [app]. destruct pt as [s|s last n].
    + cbn [turnFrom] in Hwait, Hloop |- *. destruct (s >? 100); [discriminate|].
      cbv zeta in Hwait, Hloop |- *. cbn [emit events] in Hloop.
      change ([ReadStart cur] ++ ?x) with (ReadStart cur :: x) in Hloop.
      apply atLoop_after_start in Hloop.
      rewrite (IH _ _ rest Hwait Hloop). reflexivity.
    + destruct (Z.eq_dec cur heading) as [->|Hcur].
      * rewrite turnFrom_reached in Hwait. discriminate.
      * rewrite (turnFrom_poll heading s last n cur before m Hcur) in Hwait, Hloop |- *.
        rewrite (turnFrom_poll heading s last n cur (before ++ heading :: rest) m Hcur).
        cbv zeta in Hwait, Hloop |- *.
        destruct ((if cur =? last then n + 1 else 0) >? 5);
          unfold turnToHeading in Hwait, Hloop |- *; cbn [emit events] in Hloop.
        -- apply atLoop_after_stall with (s := s + 10) in Hloop.
           rewrite (IH _ _ rest Hwait Hloop). reflexivity.
        -- apply atLoop_after_iteration
             with (s := s) (n := if cur =? last then n + 1 else 0) in Hloop.
           rewrite (IH _ _ rest Hwait Hloop). reflexivity.
Qed.

(** A run that returns [true] was, just before its last read, waiting at the
    loop test. *)
Lemma turnFrom_true_prefix (heading : Z) (compass : list Z) :
  forall (pt : TurnPoint) (m : Motors),
  result (turnFrom heading pt compass m) = Returned true ->
  exists before,
    compass = before ++ heading :: unread (turnFrom heading pt compass m) /\
    result (turnFrom heading pt before m) = Waiting /\
    atLoop pt (events (turnFrom heading pt before m)).
Proof.
  induction compass as [|cur compass IH]; intros pt m Htrue.
  - destruct pt as [s|s last n]; cbn in Htrue; [destruct (s >? 100)|];
      discriminate.
  - destruct pt as [s|s last n].
    + cbn [turnFrom] in Htrue |- *. destruct (s >? 100) eqn:Hs; [discriminate|].
      cbv zeta in Htrue |- *.
      destruct (IH _ _ Htrue) as (before & Hb & Hwait & Hloop).
      exists (cur :: before). cbn [turnFrom]. rewrite Hs. cbv zeta.
      split; [cbn; f_equal; exact Hb | split; [exact Hwait|]].
      cbn [emit events]. change ([ReadStart cur] ++ ?x) with (ReadStart cur :: x).
      apply atLoop_after_start. exact Hloop.
    + destruct (Z.eq_dec cur heading) as [->|Hcur].
      * rewrite turnFrom_reached. exists []. cbn.
        split; [reflexivity | split; [reflexivity|]]. left. eauto.
      * rewrite turnFrom_poll in Htrue |- * by assumption. cbv zeta in Htrue |- *.
        destruct ((if cur =? last then n + 1 else 0) >? 5) eqn:Hn;
          unfold turnToHeading in Htrue |- *;
          destruct (IH _ _ Htrue) as (before & Hb & Hwait & Hloop);
          exists (cur :: before); rewrite turnFrom_poll by assumption;
          cbv zeta; rewrite Hn; unfold turnToHeading;
          (split; [cbn; f_equal; exact Hb | split; [exact Hwait|]]);
          cbn [emit events].
        -- apply atLoop_after_stall with (s := s + 10). exact Hloop.
        -- apply atLoop_after_iteration
             with (s := s) (n := if cur =? last then n + 1 else 0). exact Hloop.
Qed.

Lemma atLoop_entry (s : Z) (evs : list Event) : atLoop (AtEntry s) evs <-> awaitsPoll evs.
Proof.
  unfold atLoop. split; [|auto].
  intros [[_ (s' & l & n & Hpt)] | Haw]; [discriminate | exact Haw].
Qed.

(** C5.  [turnToHeading] returns [true] exactly when one of the values it
    polled in its loop equals the target, as integers and with no tolerance;
    the poll that matches is the last read the call makes.  On a compass
    trace none of whose values equals the target the call never returns
    [true] (it returns [false] or is still polling).
    Conversely a poll of the target always ends the call with [true]: from
    any state of the loop, and on any compass trace after which the call is
    waiting at its loop test, a next value equal to the target makes the call
    return [true] having read exactly up to it; and every run that returns
    [true] is of that form. *)
Theorem turnToHeading_true_iff_exact_match
  (heading speed : Z) (compass : list Z) (m : Motors) :
  let run := turnToHeading heading speed compass m in
  (result run = Returned true <-> In heading (polled (events run))) /\
  (result run = Returned true ->
   exists before, compass = before ++ heading :: unread run) /\
  (~ In heading compass -> result run <> Returned true) /\
  (forall s lastReading numReadings rest,
     turnFrom heading (AtLoopTest s lastReading numReadings) (heading :: rest) m
     = mkTurnRun (Returned true) m rest [ReadPoll heading]) /\
  (forall rest,
     result run = Waiting -> awaitsPoll (events run) ->
     turnToHeading heading speed (compass ++ heading :: rest) m
     = mkTurnRun (Returned true) (wheels run) rest (events run ++ [ReadPoll heading])) /\
  (result run = Returned true ->
   exists before,
     compass = before ++ heading :: unread run /\
     result (turnToHeading heading speed before m) = Waiting /\
     awaitsPoll (events (turnToHeading heading speed before m))).
Proof.
  cbv zeta. unfold turnToHeading.
  pose proof (turnFrom_true_iff heading compass (AtEntry speed) m) as Hiff.
  pose proof (turnFrom_reads heading compass (AtEntry speed) m) as Hreads.
  cbv zeta in Hreads.
  split; [exact Hiff|split; [|split; [|split; [|split]]]].
  - apply turnFrom_true_last.
  - intros Hnot Htrue. apply Hnot. apply Hiff in Htrue.
    apply polled_in_reads in Htrue. rewrite <- Hreads.
    apply in_or_app. left. exact Htrue.
  - intros s lastReading numReadings rest. apply turnFrom_reached.
  - intros rest Hwait Haw. apply turnFrom_then_target; [exact Hwait|].
    apply atLoop_entry. exact Haw.
  - intros Htrue.
    destruct (turnFrom_true_prefix heading compass (AtEntry speed) m Htrue)
      as (before & Hb & Hwait & Hloop).
    exists before. split; [exact Hb | split; [exact Hwait|]].
    apply atLoop_entry in Hloop. exact Hloop.
Qed.

Lemma turnToHeading_true_iff_exact_match_witness :
  result (turnToHeading 90 20 [80; 89; 91] stopped) <> Returned true /\
  turnToHeading 90 20 ([80; 89; 91] ++ 90 :: [5]) stopped
  = mkTurnRun (Returned true) (wheels (turnToHeading 90 20 [80; 89; 91] stopped)) [5]
      (events (turnToHeading 90 20 [80; 89; 91] stopped) ++ [ReadPoll 90]).
Proof.
  destruct (turnToHeading_true_iff_exact_match 90 20 [80; 89; 91] stopped)
    as (_ & _ & Hnever & _ & Hpoll & _).
  split.
  - apply Hnever. cbn. intuition discriminate.
  - apply Hpoll; [reflexivity|].
    exists [ReadStart 80; ReadPoll 89; SpinCmd (20 * 90); Wait10Msec;
            ReadPoll 91; SpinCmd (20 * 90)], Wait10Msec.
    split; [reflexivity | left; reflexivity].
Defined.

Example near_miss_is_not_a_match :
  result (turnToHeading 90 20 [80; 89; 91; 90] stopped) = Returned true /\
  unread (turnToHeading 90 20 [80; 89; 91; 90; 5] stopped) = [5] /\
  result (turnToHeading 90 20 [90; 89] stopped) = Waiting.
Proof. repeat split. Qed.

(** ** Properties of [armStep] *)

(** While every encoder value keeps the loop waiting, the loop reads them all
    and is still polling. *)
Lemma armPoll_waits (keepWaiting : Z -> bool) (power : Z) (encoder : list Z) :
  Forall (fun e => keepWaiting e = true) encoder ->
  forall n, armPoll keepWaiting power encoder n
            = mkArmRun Waiting power (n + length encoder) [].
Proof.
  induction 1 as [|e encoder He _ IH]; intros n; cbn [armPoll length].
  - rewrite Nat.add_0_r. reflexivity.
  - rewrite He, IH. f_equal. lia.
Qed.

(** The loop ends at the first encoder value that fails its test. *)
Lemma armPoll_stops (keepWaiting : Z -> bool) (power : Z)
  (before : list Z) (e : Z) (after : list Z) :
  Forall (fun e => keepWaiting e = true) before -> keepWaiting e = false ->
  forall n, armPoll keepWaiting power (before ++ e :: after) n
            = mkArmRun (Returned tt) power (n + S (length before)) after.
Proof.
  intros Hbefore He.
  induction Hbefore as [|b before Hb _ IH]; intros n; cbn [armPoll length app].
  - rewrite He. f_equal. lia.
  - rewrite Hb, IH. f_equal. lia.
Qed.

Lemma armStep_up (speed stepSize : Z) (encoder : list Z) :
  0 < speed ->
  armStep speed stepSize encoder
  = armPoll (fun e => e <? Z.abs stepSize) speed encoder 0.
Proof.
  intros Hs. unfold armStep. destruct (Z.gtb_spec speed 0); [reflexivity | lia].
Qed.

Lemma armStep_down (speed stepSize : Z) (encoder : list Z) :
  speed <= 0 ->
  armStep speed stepSize encoder
  = armPoll (fun e => e >? - Z.abs stepSize) speed encoder 0.
Proof.
  intros Hs. unfold armStep. destruct (Z.gtb_spec speed 0); [lia | reflexivity].
Qed.

(** C9.  [armStep(speed, stepTicks)] with a tick count [stepTicks >= 0].
    With positive speed the call returns at the first encoder value that is
    [>= stepTicks], having read every value up to and including it; with
    negative speed it returns at the first value [<= -stepTicks].  While no
    encoder value has crossed that threshold the call has not returned,
    however many values it has read: there is no timeout.  The arm motor is
    left at [speed] throughout. *)
Theorem armStep_returns_at_threshold
  (speed stepTicks : Z) (before : list Z) (e : Z) (after : list Z) :
  0 <= stepTicks ->
  (0 < speed -> Forall (fun v => v < stepTicks) before ->
     (stepTicks <= e ->
      armStep speed stepTicks (before ++ e :: after)
      = mkArmRun (Returned tt) speed (S (length before)) after) /\
     armStep speed stepTicks before = mkArmRun Waiting speed (length before) [])
  /\
  (speed < 0 -> Forall (fun v => - stepTicks < v) before ->
     (e <= - stepTicks ->
      armStep speed stepTicks (before ++ e :: after)
      = mkArmRun (Returned tt) speed (S (length before)) after) /\
     armStep speed stepTicks before = mkArmRun Waiting speed (length before) []).
Proof.
  intros Hticks. split.
  - intros Hs Hbefore. rewrite !armStep_up by assumption.
    rewrite (Z.abs_eq stepTicks) by assumption.
    assert (Hkeep : Forall (fun v => (v <? stepTicks) = true) before).
    { eapply Forall_impl; [|exact Hbefore]. cbv beta. intros v Hv. lia. }
    split.
    + intros He. rewrite (armPoll_stops _ _ before e after Hkeep) by lia.
      reflexivity.
    + rewrite (armPoll_waits _ _ before Hkeep). reflexivity.
  - intros Hs Hbefore. rewrite !armStep_down by lia.
    rewrite (Z.abs_eq stepTicks) by assumption.
    assert (Hkeep : Forall (fun v => (v >? - stepTicks) = true) before).
    { eapply Forall_impl; [|exact Hbefore]. cbv beta. intros v Hv. lia. }
    split.
    + intros He. rewrite (armPoll_stops _ _ before e after Hkeep) by lia.
      reflexivity.
    + rewrite (armPoll_waits _ _ before Hkeep). reflexivity.
Qed.

Lemma armStep_returns_at_threshold_witness :
  armStepUp [0; 40; 99; 100; 130] = mkArmRun (Returned tt) 50 4 [130] /\
  armStepUp [0; 40; 99] = mkArmRun Waiting 50 3 [] /\
  armStepDown [0; -60; -100; -101] = mkArmRun (Returned tt) (-50) 3 [-101] /\
  armStepDown [0; -60] = mkArmRun Waiting (-50) 2 [].
Proof.
  pose proof (armStep_returns_at_threshold 50 100 [0; 40; 99] 100 [130]
                ltac:(lia)) as [Hup _].
  pose proof (armStep_returns_at_threshold (-50) 100 [0; -60] (-100) [-101]
                ltac:(lia)) as [_ Hdown].
  destruct (Hup ltac:(lia) ltac:(repeat constructor; lia)) as [Hup1 Hup2].
  destruct (Hdown ltac:(lia) ltac:(repeat constructor; lia)) as [Hdown1 Hdown2].
  exact (conj (Hup1 ltac:(lia)) (conj Hup2 (conj (Hdown1 ltac:(lia)) Hdown2))).
Defined.

(** A frozen encoder: however long the trace, [armStepUp] is still polling. *)
Example armStep_frozen_encoder (n : nat) :
  finished (armStepUp (repeat 0 n)) = Waiting.
Proof.
  unfold armStepUp. rewrite armStep_up by lia.
  rewrite armPoll_waits; [reflexivity|].
  apply Forall_forall. intros v Hv. apply repeat_spec in Hv. subst v. reflexivity.
Qed.

(** ** Properties of [moveRobot] *)

Example moveRobot_east :
  moveRobot axisFloat 100 0 stopped = mkMotors (-50) (-50) 50 50.
Proof. reflexivity. Qed.

Example moveRobot_north_capped :
  moveRobot axisFloat 250 90 stopped = mkMotors (-50) 50 50 (-50).
Proof. reflexivity. Qed.

Example truncate_examples :
  truncate (7 # 2) = 3 /\ truncate (- 7 # 2) = -3 /\ truncate (1 # 3) = 0.
Proof. repeat split. Qed.

(** Dropping the fraction never increases the magnitude. *)
Lemma truncate_le_Qabs (q : Q) : (inject_Z (Z.abs (truncate q)) <= Qabs q)%Q.
Proof.
  destruct q as [n d]. unfold truncate, Qle. cbn.
  rewrite Z.mul_1_r, <- (Z.quot_abs n (Zpos d)) by lia.
  change (Z.abs (Zpos d)) with (Zpos d).
  rewrite Z.mul_comm. apply Z.mul_quot_le; lia.
Qed.

(** A value within an integer bound stays within it when truncated. *)
Lemma truncate_bound (q : Q) (n : Z) :
  (Qabs q <= inject_Z n)%Q -> Z.abs (truncate q) <= n.
Proof.
  intros Hq. pose proof (truncate_le_Qabs q) as Ht.
  pose proof (Qle_trans _ _ _ Ht Hq) as Hle.
  rewrite <- Zle_Qle in Hle. exact Hle.
Qed.

Lemma Qabs_inject_Z (z : Z) : Qabs (inject_Z z) = inject_Z (Z.abs z).
Proof. reflexivity. Qed.

Section MoveRobotBounds.

Variable F : FloatOps.
Hypothesis F_ok : FloatOps_ok F.

(** A rounded product of a cosine or sine with an integer [c] is within
    [|c|]. *)
Lemma component_bound (t : Q) (c : Z) :
  Z.abs c <= 100 -> (Qabs t <= 1)%Q ->
  (Qabs (roundF F (t * inject_Z c)) <= inject_Z (Z.abs c))%Q.
Proof.
  intros Hc Ht. apply (roundF_bound F F_ok); [lia|].
  rewrite Qabs_Qmult, Qabs_inject_Z.
  setoid_replace (inject_Z (Z.abs c)) with (1 * inject_Z (Z.abs c))%Q at 2 by ring.
  apply Qmult_le_compat_nonneg; split;
    auto using Qabs_nonneg, Qle_refl.
  rewrite <- Qabs_inject_Z. apply Qabs_nonneg.
Qed.

(** Half of the rounded sum of two components within [n] is within [n],
    also after rounding and truncation. *)
Lemma half_bound (u v : Q) (n : Z) :
  0 <= n <= 100 ->
  (Qabs u <= inject_Z n)%Q -> (Qabs v <= inject_Z n)%Q ->
  Z.abs (truncate (roundF F (roundF F (u + v) / 2))) <= n.
Proof.
  intros Hn Hu Hv. apply truncate_bound.
  apply (roundF_bound F F_ok); [lia|].
  assert (Hsum : (Qabs (roundF F (u + v)) <= inject_Z (2 * n))%Q).
  { apply (roundF_bound F F_ok); [lia|].
    eapply Qle_trans; [apply Qabs_triangle|].
    rewrite inject_Z_mult.
    setoid_replace (inject_Z 2 * inject_Z n)%Q with (inject_Z n + inject_Z n)%Q
      by (change (inject_Z 2) with 2%Q; ring).
    apply Qplus_le_compat; assumption. }
  unfold Qdiv. rewrite Qabs_Qmult.
  change (Qabs (/ 2)) with (1 # 2)%Q.
  rewrite inject_Z_mult in Hsum. change (inject_Z 2) with 2%Q in Hsum.
  setoid_replace (inject_Z n) with ((2 * inject_Z n) * (1 # 2))%Q by ring.
  apply Qmult_le_compat_r; [exact Hsum | discriminate].
Qed.

(** C6.  For every speed in [-100,100] and every heading in [0,360), each
    of the four wheel values [moveRobot] writes has magnitude at most
    [|speed|]. *)
Theorem moveRobot_wheels_within_speed (speed heading : Q) (m : Motors) :
  (-100 <= speed <= 100)%Q -> (0 <= heading < 360)%Q ->
  let m' := moveRobot F speed heading m in
  (inject_Z (Z.abs (motorNW m')) <= Qabs speed)%Q /\
  (inject_Z (Z.abs (motorNE m')) <= Qabs speed)%Q /\
  (inject_Z (Z.abs (motorSE m')) <= Qabs speed)%Q /\
  (inject_Z (Z.abs (motorSW m')) <= Qabs speed)%Q.
Proof.
  intros Hspeed _. cbv zeta.
  assert (Ht : Z.abs (truncate speed) <= 100).
  { apply truncate_bound. apply Qabs_Qle_condition. exact Hspeed. }
  assert (Hcap : cap100 (truncate speed) = truncate speed).
  { apply cap100_id_iff. lia. }
  unfold moveRobot. cbn [motorNW motorNE motorSE motorSW]. rewrite Hcap.
  set (c := truncate speed) in *.
  pose proof (component_bound (cosDegrees F heading) c Ht
                (cosDegrees_bound F F_ok heading)) as Hx.
  pose proof (component_bound (sinDegrees F heading) c Ht
                (sinDegrees_bound F F_ok heading)) as Hy.
  set (x := roundF F (cosDegrees F heading * inject_Z c)) in *.
  set (y := roundF F (sinDegrees F heading * inject_Z c)) in *.
  assert (Hnx : (Qabs (- x) <= inject_Z (Z.abs c))%Q) by (rewrite Qabs_opp; exact Hx).
  assert (Hny : (Qabs (- y) <= inject_Z (Z.abs c))%Q) by (rewrite Qabs_opp; exact Hy).
  assert (Hn : 0 <= Z.abs c <= 100) by lia.
  pose proof (truncate_le_Qabs speed) as Hc. fold c in Hc.
  repeat split; (eapply Qle_trans; [|exact Hc]); rewrite <- Zle_Qle.
  - apply (half_bound (- x) (- y)); assumption.
  - apply (half_bound (- x) y); assumption.
  - apply (half_bound x y); assumption.
  - apply (half_bound x (- y)); assumption.
Qed.

End MoveRobotBounds.

Lemma axisFloat_ok : FloatOps_ok axisFloat.
Proof.
  constructor.
  - intros a. cbn. unfold axisCos.
    destruct (Qeq_bool a 0); [|destruct (Qeq_bool a 180)]; discriminate.
  - intros a. cbn. unfold axisSin.
    destruct (Qeq_bool a 90); [|destruct (Qeq_bool a 270)]; discriminate.
  - intros q n _ Hq. exact Hq.
Qed.

Lemma moveRobot_wheels_within_speed_witness :
  let m' := moveRobot axisFloat 100 0 stopped in
  (inject_Z (Z.abs (motorNW m')) <= Qabs 100)%Q /\
  (inject_Z (Z.abs (motorNE m')) <= Qabs 100)%Q /\
  (inject_Z (Z.abs (motorSE m')) <= Qabs 100)%Q /\
  (inject_Z (Z.abs (motorSW m')) <= Qabs 100)%Q.
Proof.
  apply (moveRobot_wheels_within_speed axisFloat axisFloat_ok 100 0 stopped).
  - split; discriminate.
  - split; [discriminate | reflexivity].
Defined.

(** ** Further properties of [scaleJoystick] and [cap100] *)

Lemma linearCurve_opp (y : Z) : linearCurve (- y) = - linearCurve y.
Proof.
  unfold linearCurve. rewrite Z.abs_opp.
  destruct (Z.abs y <? 10); [reflexivity|].
  rewrite Z.mul_opp_l, Z.quot_opp_l by lia. reflexivity.
Qed.

Lemma linearCurve_mono (a b : Z) : a <= b -> linearCurve a <= linearCurve b.
Proof.
  intros Hab. unfold linearCurve.
  destruct (Z.ltb_spec (Z.abs a) 10), (Z.ltb_spec (Z.abs b) 10);
    try reflexivity.
  - assert (0 <= b * 100) by lia. apply Z.quot_pos; lia.
  - assert (a * 100 <= 0) by lia.
    rewrite <- (Z.opp_involutive (a * 100)), Z.quot_opp_l by lia.
    assert (0 <= Z.quot (- (a * 100)) 127) by (apply Z.quot_pos; lia). lia.
  - apply Z.quot_le_mono; lia.
Qed.

Lemma curve_opp (b : bool) (y : Z) : curve b (- y) = - curve b y.
Proof.
  unfold curve. rewrite clampAxis_opp. destruct b.
  - rewrite Z.quot_opp_l by lia. apply logCurve_opp.
  - apply linearCurve_opp.
Qed.

Lemma curve_mono (b : bool) (y z : Z) : y <= z -> curve b y <= curve b z.
Proof.
  intros Hyz. pose proof (clampAxis_mono y z Hyz) as Hc.
  pose proof (clampAxis_range y). pose proof (clampAxis_range z).
  unfold curve. destruct b.
  - apply logCurve_mono.
    + Z.quot_rem_to_equations. lia.
    + apply Z.quot_le_mono; lia.
    + Z.quot_rem_to_equations. lia.
  - apply linearCurve_mono. exact Hc.
Qed.

(** X1.  Whatever the curve, the raw reading and the power limit (also a
    limit outside (0,100], which is ignored), the result of [scaleJoystick]
    is a motor power in [-100,100]. *)
Theorem scaleJoystick_in_motor_range (b : bool) (yOrig nMaxPower : Z) :
  -100 <= scaleJoystick b yOrig nMaxPower <= 100.
Proof.
  pose proof (curve_bounds b yOrig) as Hc. rewrite scaleJoystick_curve.
  destruct (Z.ltb_spec nMaxPower kMaximumPowerLevel), (Z.gtb_spec nMaxPower 0);
    cbn [andb]; try lia.
  pose proof (limit_top_end (curve b yOrig) nMaxPower Hc ltac:(lia)).
  unfold kMaximumPowerLevel in *. lia.
Qed.

(** X2.  [scaleJoystick] is odd in the raw reading for both curves and every
    power limit: negating the reading negates the result. *)
Theorem scaleJoystick_odd (b : bool) (yOrig nMaxPower : Z) :
  scaleJoystick b (- yOrig) nMaxPower = - scaleJoystick b yOrig nMaxPower.
Proof.
  rewrite !scaleJoystick_curve, curve_opp.
  destruct ((nMaxPower <? kMaximumPowerLevel) && (nMaxPower >? 0)); [|reflexivity].
  unfold kMaximumPowerLevel. rewrite Z.mul_opp_l, Z.quot_opp_l by lia. reflexivity.
Qed.

(** X3.  [scaleJoystick] is monotonic non-decreasing in the raw reading, for
    both curves, every power limit and every pair of integers (readings
    beyond [-127,127] included). *)
Theorem scaleJoystick_monotone (b : bool) (y z nMaxPower : Z) :
  y <= z -> scaleJoystick b y nMaxPower <= scaleJoystick b z nMaxPower.
Proof.
  intros Hyz. pose proof (curve_mono b y z Hyz) as Hc.
  rewrite !scaleJoystick_curve.
  destruct (Z.ltb_spec nMaxPower kMaximumPowerLevel), (Z.gtb_spec nMaxPower 0);
    cbn [andb]; try exact Hc.
  unfold kMaximumPowerLevel. apply Z.quot_le_mono; nia.
Qed.

Lemma scaleJoystick_monotone_witness :
  scaleJoystick false (-200) 60 <= scaleJoystick false 35 60.
Proof. apply (scaleJoystick_monotone false (-200) 35 60). lia. Defined.

(** X4.  The subscript [scaleJoystick] uses on [nLogScale] is in bounds for
    every integer reading: it lies in 0..31, the array holds an entry there,
    and the 33rd entry (subscript 32) is never read. *)
Theorem nLogScale_subscript_in_bounds (yOrig : Z) :
  let q := Z.quot (clampAxis yOrig) 4 in
  let i := if q >=? 0 then q else - q in
  0 <= i <= 31 /\
  exists v, nth_error nLogScale (Z.to_nat i) = Some v /\
            scaleJoystick_default true yOrig = if q >=? 0 then v else - v.
Proof.
  cbv zeta. pose proof (logIndex_in_range yOrig) as Hi. cbv zeta in Hi.
  split; [exact Hi|].
  set (i := if Z.quot (clampAxis yOrig) 4 >=? 0
            then Z.quot (clampAxis yOrig) 4 else - Z.quot (clampAxis yOrig) 4) in *.
  exists (nLogScale_at i). split.
  - unfold nLogScale_at. apply nth_error_nth'.
    change (length nLogScale) with 33%nat. lia.
  - rewrite scaleJoystick_default_curve. unfold curve, logCurve, i.
    destruct (Z.quot (clampAxis yOrig) 4 >=? 0); reflexivity.
Qed.

(** X5.  Full deflection gives exactly the power limit: for a limit in
    (0,100] and either curve, a reading of 127 or more yields [maxPower] and a
    reading of -127 or less yields [-maxPower].  With the default limit the
    logarithmic curve already reaches 100 from a reading of 124 on, the
    linear curve only at 127. *)
Theorem scaleJoystick_full_deflection (b : bool) (raw maxPower : Z) :
  0 < maxPower <= 100 ->
  (127 <= raw -> scaleJoystick b raw maxPower = maxPower) /\
  (raw <= -127 -> scaleJoystick b raw maxPower = - maxPower) /\
  (scaleJoystick_default true raw = 100 <-> 124 <= raw) /\
  (scaleJoystick_default false raw = 100 <-> 127 <= raw).
Proof.
  intros Hp.
  assert (Htop : forall y, 127 <= y -> curve b y = 100).
  { intros y Hy. unfold curve, clampAxis.
    destruct (Z.ltb_spec y 0); [lia|].
    replace (Z.min y 127) with 127 by lia. destruct b; reflexivity. }
  assert (Hscale : forall c, (c = 100 \/ c = -100) ->
            (if (maxPower <? kMaximumPowerLevel) && (maxPower >? 0)
             then Z.quot (c * maxPower) kMaximumPowerLevel else c)
            = c / 100 * maxPower).
  { intros c Hc. unfold kMaximumPowerLevel.
    destruct (Z.ltb_spec maxPower 100), (Z.gtb_spec maxPower 0); cbn [andb];
      try lia; destruct Hc as [-> | ->].
    - rewrite Z.mul_comm, Z.quot_mul by lia. change (100 / 100) with 1. lia.
    - replace (-100 * maxPower) with (- maxPower * 100) by lia.
      rewrite Z.quot_mul by lia. change (-100 / 100) with (-1). lia.
    - change (100 / 100) with 1. lia.
    - change (-100 / 100) with (-1). lia. }
  split; [|split; [|split]].
  - intros Hraw. rewrite scaleJoystick_curve, (Htop raw Hraw), Hscale by auto.
    change (100 / 100) with 1. lia.
  - intros Hraw.
    assert (Hbot : curve b raw = -100).
    { rewrite <- (Z.opp_involutive raw), curve_opp, Htop by lia. reflexivity. }
    rewrite scaleJoystick_curve, Hbot, Hscale by auto.
    change (-100 / 100) with (-1). lia.
  - rewrite scaleJoystick_default_curve. unfold curve, logCurve.
    pose proof (clampAxis_range raw) as Hc.
    pose proof (logIndex_in_range raw) as Hi. cbv zeta in Hi. split.
    + intros H100.
      destruct (Z.le_gt_cases 124 raw) as [|Hlow]; [assumption|exfalso].
      assert (Hq : Z.quot (clampAxis raw) 4 <= 30).
      { unfold clampAxis. destruct (Z.ltb_spec raw 0);
          Z.quot_rem_to_equations; lia. }
      destruct (Z.geb_spec (Z.quot (clampAxis raw) 4) 0) as [Hpos|Hneg].
      * pose proof (nLogScale_at_sorted (Z.quot (clampAxis raw) 4) 30
                      ltac:(lia) Hq ltac:(lia)) as Hs.
        change (nLogScale_at 30) with 95 in Hs. lia.
      * pose proof (nLogScale_at_bounds (- Z.quot (clampAxis raw) 4) ltac:(lia)).
        lia.
    + intros Hraw.
      assert (Hq : Z.quot (clampAxis raw) 4 = 31).
      { unfold clampAxis. destruct (Z.ltb_spec raw 0);
          Z.quot_rem_to_equations; lia. }
      rewrite Hq. reflexivity.
  - rewrite scaleJoystick_default_curve. unfold curve, linearCurve.
    pose proof (clampAxis_range raw) as Hc. split.
    + intros H100.
      destruct (Z.le_gt_cases 127 raw) as [|Hlow]; [assumption|exfalso].
      assert (Hcl : clampAxis raw <= 126).
      { unfold clampAxis. destruct (Z.ltb_spec raw 0); lia. }
      destruct (Z.abs (clampAxis raw) <? 10); [discriminate|].
      revert H100. Z.quot_rem_to_equations. lia.
    + intros Hraw.
      assert (Hcl : clampAxis raw = 127).
      { unfold clampAxis. destruct (Z.ltb_spec raw 0); lia. }
      rewrite Hcl. reflexivity.
Qed.

Lemma scaleJoystick_full_deflection_witness :
  (127 <= 127 -> scaleJoystick false 127 35 = 35) /\
  (127 <= -127 -> scaleJoystick false 127 35 = - 35) /\
  (scaleJoystick_default true 127 = 100 <-> 124 <= 127) /\
  (scaleJoystick_default false 127 = 100 <-> 127 <= 127).
Proof. apply (scaleJoystick_full_deflection false 127 35). lia. Defined.

(** X6.  [cap100] is the clamp to [-100,100]: it equals
    [max(-100, min(v, 100))], is idempotent, odd and monotonic. *)
Theorem cap100_is_clamp (v w : Z) :
  v <= w ->
  cap100 v = Z.max (-100) (Z.min v 100) /\
  cap100 (cap100 v) = cap100 v /\
  cap100 (- v) = - cap100 v /\
  cap100 v <= cap100 w.
Proof.
  intros Hvw. unfold cap100.
  repeat match goal with
         | |- context [?a >? 0] => destruct (Z.gtb_spec a 0)
         end; lia.
Qed.

Lemma cap100_is_clamp_witness :
  cap100 (-250) = Z.max (-100) (Z.min (-250) 100) /\
  cap100 (cap100 (-250)) = cap100 (-250) /\
  cap100 (- -250) = - cap100 (-250) /\
  cap100 (-250) <= cap100 30.
Proof. apply (cap100_is_clamp (-250) 30). lia. Defined.

(** ** Further properties of [turnToHeading] and [turnDegrees] *)

Lemma repeat_snoc (r : Z) (k : nat) (l : list Z) :
  repeat r (S k) ++ l = repeat r k ++ r :: l.
Proof.
  induction k as [|k IH]; [reflexivity|].
  change (repeat r (S (S k)) ++ l) with (r :: (repeat r (S k) ++ l)).
  rewrite IH. reflexivity.
Qed.

(** With [k] repeats counted and no value shown seven times in a row, the
    loop never stalls. *)
Lemma turnFrom_no_stall (heading : Z) (compass : list Z) :
  forall (speed last : Z) (k : nat) (m : Motors),
  (k <= 5)%nat ->
  (forall r pre post, repeat last (S k) ++ compass <> pre ++ repeat r 7 ++ post) ->
  let run := turnFrom heading (AtLoopTest speed last (Z.of_nat k)) compass m in
  result run <> Returned false /\ attempts (events run) = 0%nat.
Proof.
  cbv zeta.
  induction compass as [|cur compass IH]; intros speed last k m Hk Hrun.
  - cbn. split; [discriminate | reflexivity].
  - destruct (Z.eq_dec cur heading) as [->|Hcur].
    + rewrite turnFrom_reached. cbn. split; [discriminate | reflexivity].
    + rewrite turnFrom_poll by assumption. cbv zeta.
      destruct (Z.eqb_spec cur last) as [->|Hne].
      * destruct (Z.gtb_spec (Z.of_nat k + 1) 5) as [Hgt|Hle].
        -- exfalso. assert (k = 5%nat) by lia. subst k.
           apply (Hrun last [] compass). reflexivity.
        -- replace (Z.of_nat k + 1) with (Z.of_nat (S k)) by lia.
           cbn [emit result events attempts filter app].
           apply IH; [lia|].
           intros r pre post. rewrite repeat_snoc. apply Hrun.
      * cbn [Z.gtb Z.compare emit result events attempts filter app].
        apply (IH speed cur 0%nat); [lia|].
        intros r pre post Heq. apply (Hrun r (repeat last (S k) ++ pre) post).
        rewrite <- app_assoc. f_equal. exact Heq.
Qed.

(** X7.  A call within the speed cap whose compass never shows the same
    value seven times in a row never retries and never returns [false]: it
    makes at most one start read, and it either returns [true] or is still
    polling. *)
Theorem turnToHeading_no_retry_without_stall
  (heading speed : Z) (compass : list Z) (m : Motors) :
  speed <= 100 ->
  (forall r pre post, compass <> pre ++ repeat r 7 ++ post) ->
  let run := turnToHeading heading speed compass m in
  result run <> Returned false /\ (attempts (events run) <= 1)%nat.
Proof.
  intros Hs Hrun. cbv zeta. destruct compass as [|start compass].
  - unfold turnToHeading. cbn. destruct (Z.gtb_spec speed 100); [lia|].
    cbn. split; [discriminate | lia].
  - rewrite turnToHeading_start by assumption.
    destruct (turnFrom_no_stall heading compass speed start 0 m ltac:(lia) Hrun)
      as [Hres Hatt].
    cbn [Z.of_nat] in Hres, Hatt.
    cbn [emit result events attempts filter app length]. fold (attempts
      (events (turnFrom heading (AtLoopTest speed start 0) compass m))).
    rewrite Hatt. split; [exact Hres | lia].
Qed.

Lemma turnToHeading_no_retry_without_stall_witness :
  let run := turnToHeading 90 100
               [1; 1; 1; 1; 1; 1; 2; 2; 2; 2; 2; 2; 90; 4] stopped in
  result run <> Returned false /\ (attempts (events run) <= 1)%nat.
Proof.
  apply (turnToHeading_no_retry_without_stall 90 100
           [1; 1; 1; 1; 1; 1; 2; 2; 2; 2; 2; 2; 90; 4] stopped); [lia|].
  intros r pre post Heq.
  do 15 (destruct pre as [|? pre];
         [cbn in Heq; congruence | cbn in Heq; try discriminate;
                                   injection Heq as _ Heq]).
Defined.

Example changing_compass_no_retry :
  let run := turnToHeading 90 100 [1; 1; 1; 1; 1; 1; 2; 2; 2; 2; 2; 2; 90] stopped in
  result run = Returned true /\ attempts (events run) = 1%nat.
Proof. split; reflexivity. Qed.

Lemma attemptsLeft_step (speed : Z) :
  speed <= 100 -> attemptsLeft speed = 1 + attemptsLeft (speed + 10).
Proof.
  intros Hs. unfold attemptsLeft.
  destruct (Z.gtb_spec speed 100); [lia|].
  destruct (Z.gtb_spec (speed + 10) 100);
    Z.div_mod_to_equations; lia.
Qed.

Lemma attemptsLeft_nonneg (speed : Z) : 0 <= attemptsLeft speed.
Proof.
  unfold attemptsLeft. destruct (Z.gtb_spec speed 100); [lia|].
  Z.div_mod_to_equations. lia.
Qed.

Lemma attemptsLeft_over (speed : Z) : 100 < speed -> attemptsLeft speed = 0.
Proof. intros Hs. unfold attemptsLeft. destruct (Z.gtb_spec speed 100); lia. Qed.

Lemma attempts_emit (evs : list Event) (r : TurnRun) :
  attempts (events (emit evs r)) = (attempts evs + attempts (events r))%nat.
Proof. unfold attempts, emit. cbn [events]. rewrite filter_app, length_app. reflexivity. Qed.

Lemma reads_emit (evs : list Event) (r : TurnRun) :
  reads (events (emit evs r)) = reads evs ++ reads (events r).
Proof. unfold reads, emit. cbn [events]. apply flat_map_app. Qed.

(** Evaluates the counts taken of an explicit list of events. *)
Ltac count_prefix :=
  repeat match goal with
         | |- context [attempts (?x :: ?l)] =>
             let v := eval cbv in (attempts (x :: l)) in
             change (attempts (x :: l)) with v
         | |- context [length (reads (?x :: ?l))] =>
             let v := eval cbv in (length (reads (x :: l))) in
             change (length (reads (x :: l))) with v
         end.

(** What a run that ends in [false] has done, from either control point. *)
Lemma turnFrom_false (heading : Z) (compass : list Z) :
  forall (pt : TurnPoint) (m : Motors),
  let run := turnFrom heading pt compass m in
  result run = Returned false ->
  match pt with
  | AtEntry speed =>
      Z.of_nat (attempts (events run)) = attemptsLeft speed /\
      7 * attemptsLeft speed <= Z.of_nat (length (reads (events run))) /\
      (speed <= 100 -> wheels run = stopped)
  | AtLoopTest speed last n =>
      Z.of_nat (attempts (events run)) = attemptsLeft (speed + 10) /\
      (0 <= n ->
       6 - n + 7 * attemptsLeft (speed + 10)
       <= Z.of_nat (length (reads (events run)))) /\
      wheels run = stopped
  end.
Proof.
  cbv zeta.
  induction compass as [|cur compass IH]; intros pt m Hfalse.
  - destruct pt as [speed|speed last n]; cbn [turnFrom] in Hfalse |- *.
    + destruct (Z.gtb_spec speed 100); [|discriminate].
      rewrite attemptsLeft_over by assumption. cbn. repeat split; lia.
    + discriminate.
  - destruct pt as [speed|speed last n].
    + cbn [turnFrom] in Hfalse |- *.
      destruct (Z.gtb_spec speed 100) as [Hgt|Hle].
      * rewrite attemptsLeft_over by assumption. cbn. repeat split; lia.
      * cbv zeta in Hfalse |- *.
        destruct (IH (AtLoopTest speed cur 0) m Hfalse) as (Ha & Hr & Hw).
        rewrite (attemptsLeft_step speed Hle), attempts_emit, reads_emit, length_app.
        specialize (Hr ltac:(lia)). cbn [emit wheels].
        split; [|split]; [count_prefix; lia | count_prefix; lia | intros _; exact Hw].
    + destruct (Z.eq_dec cur heading) as [->|Hcur].
      * rewrite turnFrom_reached in Hfalse. discriminate.
      * rewrite turnFrom_poll in Hfalse |- * by assumption. cbv zeta in Hfalse |- *.
        destruct (Z.gtb_spec (if cur =? last then n + 1 else 0) 5) as [Hgt|Hle].
        -- unfold turnToHeading in Hfalse |- *.
           destruct (IH (AtEntry (speed + 10)) stopped Hfalse) as (Ha & Hr & Hw).
           rewrite attempts_emit, reads_emit, length_app. cbn [emit wheels].
           split; [|split].
           ++ count_prefix. lia.
           ++ intros Hn. destruct (Z.eqb_spec cur last); count_prefix; lia.
           ++ destruct (Z.le_gt_cases (speed + 10) 100) as [Hin|Hout]; [auto|].
              destruct compass; cbn [turnFrom];
                (destruct (Z.gtb_spec (speed + 10) 100); [reflexivity | lia]).
        -- destruct (IH _ _ Hfalse) as (Ha & Hr & Hw).
           rewrite attempts_emit, reads_emit, length_app. cbn [emit wheels].
           split; [|split].
           ++ count_prefix. lia.
           ++ intros Hn. destruct (Z.eqb_spec cur last); count_prefix; lia.
           ++ exact Hw.
Qed.

(** X8.  When [turnToHeading] returns [false] it has made every attempt the
    cap allows: exactly [(100 - speed) / 10 + 1] calls for a speed within the
    cap (none above it), each of which read the compass at least seven times
    before giving up, and the last stall left all four wheels stopped. *)
Theorem turnToHeading_false_after_all_attempts
  (heading speed : Z) (compass : list Z) (m : Motors) :
  let run := turnToHeading heading speed compass m in
  result run = Returned false ->
  Z.of_nat (attempts (events run)) = attemptsLeft speed /\
  7 * attemptsLeft speed <= Z.of_nat (length (reads (events run))) /\
  (speed <= 100 ->
   attemptsLeft speed = (100 - speed) / 10 + 1 /\ wheels run = stopped).
Proof.
  cbv zeta. intros Hfalse.
  destruct (turnFrom_false heading compass (AtEntry speed) m Hfalse) as (Ha & Hr & Hw).
  split; [exact Ha | split; [exact Hr|]].
  intros Hs. split; [|exact (Hw Hs)].
  unfold attemptsLeft. destruct (Z.gtb_spec speed 100); [lia | reflexivity].
Qed.

Lemma turnToHeading_false_after_all_attempts_witness :
  let run := turnToHeading 90 90 (frozen 10 ++ frozen 20) (mkMotors 1 2 3 4) in
  Z.of_nat (attempts (events run)) = attemptsLeft 90 /\
  7 * attemptsLeft 90 <= Z.of_nat (length (reads (events run))) /\
  (90 <= 100 ->
   attemptsLeft 90 = (100 - 90) / 10 + 1 /\ wheels run = stopped).
Proof.
  apply (turnToHeading_false_after_all_attempts 90 90 (frozen 10 ++ frozen 20)
           (mkMotors 1 2 3 4)).
  reflexivity.
Defined.

Example default_speed_allows_nine_attempts : attemptsLeft 20 = 9.
Proof. reflexivity. Qed.

Lemma replay_app (m : Motors) (a b : list Event) :
  replay m (a ++ b) = replay (replay m a) b.
Proof. unfold replay. apply fold_left_app. Qed.

(** A run that ends in [true]: the matching poll is its last event, the
    registers hold what the spin commands before it left there, and if a wait
    comes just before the match the wheels are at [20 * heading]. *)
Lemma turnFrom_true_wheels (heading : Z) (compass : list Z) :
  forall (pt : TurnPoint) (m : Motors),
  let run := turnFrom heading pt compass m in
  result run = Returned true ->
  exists pre,
    events run = pre ++ [ReadPoll heading] /\
    wheels run = replay m pre /\
    (forall pre', pre = pre' ++ [Wait10Msec] ->
       wheels run = mkMotors (20 * heading) (20 * heading) (20 * heading) (20 * heading)).
Proof.
  cbv zeta.
  induction compass as [|cur compass IH]; intros pt m Htrue.
  - destruct pt as [s|s last n]; cbn in Htrue; [destruct (s >? 100)|];
      discriminate.
  - destruct pt as [s|s last n].
    + cbn [turnFrom] in Htrue |- *. destruct (s >? 100); [discriminate|].
      cbv zeta in Htrue |- *.
      destruct (IH _ _ Htrue) as (pre & Hev & Hw & Hlast).
      exists (ReadStart cur :: pre). cbn [emit events wheels].
      rewrite Hev. split; [reflexivity | split; [exact Hw|]].
      intros pre' Hpre. destruct (exists_last (l := pre)) as (p & a & Hp).
      { intros ->. destruct pre' as [|? [|? ?]]; discriminate. }
      subst pre. apply (Hlast p).
      change (ReadStart cur :: p ++ [a]) with ((ReadStart cur :: p) ++ [a]) in Hpre.
      apply app_inj_tail in Hpre. destruct Hpre as [_ ->]. reflexivity.
    + destruct (Z.eq_dec cur heading) as [->|Hcur].
      * rewrite turnFrom_reached. exists []. cbn.
        split; [reflexivity | split; [reflexivity|]].
        intros pre' Hpre. destruct pre'; discriminate.
      * rewrite turnFrom_poll in Htrue |- * by assumption. cbv zeta in Htrue |- *.
        destruct ((if cur =? last then n + 1 else 0) >? 5).
        -- unfold turnToHeading in Htrue |- *.
           destruct (IH _ _ Htrue) as (pre & Hev & Hw & Hlast).
           exists ([ReadPoll cur; SpinCmd (20 * heading); Wait10Msec; SpinCmd 0] ++ pre).
           cbn [emit events wheels]. rewrite Hev, <- app_assoc.
           split; [reflexivity | split; [rewrite replay_app; exact Hw|]].
           intros pre' Hpre. destruct (exists_last (l := pre)) as (p & a & Hp).
           { intros ->. rewrite app_nil_r in Hpre.
             change [ReadPoll cur; SpinCmd (20 * heading); Wait10Msec; SpinCmd 0]
               with ([ReadPoll cur; SpinCmd (20 * heading); Wait10Msec] ++ [SpinCmd 0])
               in Hpre.
             apply app_inj_tail in Hpre. destruct Hpre as [_ Hbad]. discriminate. }
           subst pre. apply (Hlast p). rewrite app_assoc in Hpre.
           apply app_inj_tail in Hpre. destruct Hpre as [_ ->]. reflexivity.
        -- destruct (IH _ _ Htrue) as (pre & Hev & Hw & Hlast).
           exists ([ReadPoll cur; SpinCmd (20 * heading); Wait10Msec] ++ pre).
           cbn [emit events wheels]. rewrite Hev, <- app_assoc.
           split; [reflexivity | split; [rewrite replay_app; exact Hw|]].
           intros pre' Hpre. destruct pre as [|e pre].
           ++ rewrite Hw. reflexivity.
           ++ destruct (exists_last (l := e :: pre)) as (p & a & Hp);
                [discriminate|].
              rewrite Hp in *. apply (Hlast p). rewrite app_assoc in Hpre.
              apply app_inj_tail in Hpre. destruct Hpre as [_ ->]. reflexivity.
Qed.

(** X9.  [turnToHeading] never stops the robot on success.  When it returns
    [true] the matching poll is the last hardware access (no [spin] follows
    it), the motor registers hold what the spin commands issued before it left
    there, and if the call had just missed (the event before the match is the
    10 ms wait of a loop iteration) all four wheels are still at
    [20 * heading]. *)
Theorem turnToHeading_success_leaves_wheels_spinning
  (heading speed : Z) (compass : list Z) (m : Motors) :
  let run := turnToHeading heading speed compass m in
  result run = Returned true ->
  exists pre,
    events run = pre ++ [ReadPoll heading] /\
    wheels run = replay m pre /\
    (forall pre', pre = pre' ++ [Wait10Msec] ->
       wheels run = mkMotors (20 * heading) (20 * heading) (20 * heading) (20 * heading)).
Proof. cbv zeta. apply turnFrom_true_wheels. Qed.

Lemma turnToHeading_success_leaves_wheels_spinning_witness :
  exists pre,
    events (turnToHeading 90 20 [10; 30; 90] stopped) = pre ++ [ReadPoll 90] /\
    wheels (turnToHeading 90 20 [10; 30; 90] stopped) = replay stopped pre /\
    (forall pre', pre = pre' ++ [Wait10Msec] ->
       wheels (turnToHeading 90 20 [10; 30; 90] stopped)
       = mkMotors (20 * 90) (20 * 90) (20 * 90) (20 * 90)).
Proof.
  apply (turnToHeading_success_leaves_wheels_spinning 90 20 [10; 30; 90] stopped).
  reflexivity.
Defined.

Example success_after_a_miss_keeps_spinning :
  wheels (turnToHeading 90 20 [10; 30; 90] stopped) = mkMotors 1800 1800 1800 1800 /\
  wheels (turnToHeading 90 20 (frozen 10 ++ [10; 90]) (mkMotors 5 5 5 5)) = stopped.
Proof. split; reflexivity. Qed.

(** Every poll that misses the target is answered by [spin(20 * heading)]. *)
Lemma turnFrom_miss_spins (heading : Z) (compass : list Z) :
  forall (pt : TurnPoint) (m : Motors) (r : Z),
  In r (polled (events (turnFrom heading pt compass m))) -> r <> heading ->
  In (20 * heading) (spins (events (turnFrom heading pt compass m))).
Proof.
  induction compass as [|cur compass IH]; intros pt m r Hin Hne.
  - destruct pt as [s|s last n]; cbn in Hin; [destruct (s >? 100)|]; contradiction.
  - destruct pt as [s|s last n].
    + cbn [turnFrom] in Hin |- *. destruct (s >? 100); [contradiction|].
      cbn in Hin |- *. eapply IH; eassumption.
    + destruct (Z.eq_dec cur heading) as [->|Hcur].
      * rewrite turnFrom_reached in Hin. cbn in Hin. intuition congruence.
      * rewrite turnFrom_poll by assumption. cbv zeta.
        destruct ((if cur =? last then n + 1 else 0) >? 5); cbn; auto.
Qed.

(** X10.  [turnToHeading] respects the documented argument range of [spin]
    (between -100 and 100) only for targets within five degrees of 0: for
    [-5 <= heading <= 5] every spin command it issues is in range.  For any
    other target whose product [20 * heading] fits a 16-bit [int] (so that it
    does not wrap at any width of [int]; these are the targets with
    [|heading| <= 1638], among them every compass heading from 6 to 359), a
    single poll that misses the target already makes it command a wheel power
    beyond 100 in magnitude, which [cap100] would change. *)
Theorem turnToHeading_spin_argument_range
  (heading speed : Z) (compass : list Z) (m : Motors) :
  let evs := events (turnToHeading heading speed compass m) in
  (-5 <= heading <= 5 -> forall v, In v (spins evs) -> -100 <= v <= 100) /\
  (~ (-5 <= heading <= 5) -> fits_int16 (20 * heading) ->
   forall r, In r (polled evs) -> r <> heading ->
   exists v, In v (spins evs) /\ fits_int16 v /\ 100 < Z.abs v /\ cap100 v <> v) /\
  (6 <= heading < 360 -> fits_int16 (20 * heading)).
Proof.
  cbv zeta. unfold turnToHeading. split; [|split].
  - intros Hh v Hin. apply turnFrom_spins in Hin. lia.
  - intros Hh Hfit r Hin Hne. exists (20 * heading).
    split; [eapply turnFrom_miss_spins; eassumption|].
    split; [exact Hfit|]. split; [lia|]. rewrite cap100_id_iff. lia.
  - unfold fits_int16. lia.
Qed.

Lemma turnToHeading_spin_argument_range_witness :
  exists v, In v (spins (events (turnToHeading 6 20 [0; 3; 6] stopped)))
            /\ fits_int16 v /\ 100 < Z.abs v /\ cap100 v <> v.
Proof.
  refine (proj1 (proj2 (turnToHeading_spin_argument_range 6 20 [0; 3; 6] stopped))
            _ _ 3 _ _).
  - lia.
  - unfold fits_int16. lia.
  - cbn. auto.
  - discriminate.
Defined.

(** A run returns [true] only on a trace that contains the target. *)
Lemma turnFrom_true_in_compass (heading : Z) (compass : list Z)
  (pt : TurnPoint) (m : Motors) :
  result (turnFrom heading pt compass m) = Returned true -> In heading compass.
Proof.
  intros Htrue. destruct (turnFrom_true_last heading compass pt m Htrue) as [before ->].
  apply in_or_app. right. left. reflexivity.
Qed.

(** X11.  [turnDegrees] computes its target as the current reading minus the
    angle and does not bring it back into [0,360).  On a compass whose values
    all lie in [0,360), a call whose difference falls outside that range
    (an angle larger than the current reading, or a negative angle that takes
    the sum to 360 or more) never makes the inner [turnToHeading] return
    [true]; and the target the inner call is given is that difference. *)
Theorem turnDegrees_target_not_normalised
  (angle current : Z) (compass : list Z) (m : Motors) :
  Forall (fun r => 0 <= r < 360) compass ->
  ~ (0 <= current - angle < 360) ->
  turnDegrees angle (current :: compass) m
  = turnToHeading (current - angle) 20 compass m /\
  result (turnDegrees angle (current :: compass) m) <> Returned true.
Proof.
  intros Hrange Hout. split; [reflexivity|].
  cbn [turnDegrees]. unfold turnToHeading. intros Htrue.
  apply turnFrom_true_in_compass in Htrue.
  rewrite Forall_forall in Hrange. apply Hrange in Htrue. lia.
Qed.

Lemma turnDegrees_target_not_normalised_witness :
  turnDegrees 90 (30 :: [30; 350; 300; 270]) stopped
  = turnToHeading (30 - 90) 20 [30; 350; 300; 270] stopped /\
  result (turnDegrees 90 (30 :: [30; 350; 300; 270]) stopped) <> Returned true.
Proof.
  apply (turnDegrees_target_not_normalised 90 30 [30; 350; 300; 270] stopped).
  - repeat constructor; lia.
  - lia.
Defined.

Example turnDegrees_wraps_nowhere :
  result (turnDegrees 90 (30 :: [30; 350; 300; 300]) stopped) = Waiting /\
  result (turnDegrees 30 (90 :: [90; 80; 70; 60]) stopped) = Returned true.
Proof. split; reflexivity. Qed.

(** ** Further properties of [armStep], [armTask] and the servo functions *)

Lemma armPoll_motor (keepWaiting : Z -> bool) (power : Z) (encoder : list Z) :
  forall n, motorArm (armPoll keepWaiting power encoder n) = power.
Proof.
  induction encoder as [|e encoder IH]; intros n; cbn [armPoll]; [reflexivity|].
  destruct (keepWaiting e); [apply IH | reflexivity].
Qed.

Lemma armPoll_returns_iff (keepWaiting : Z -> bool) (power : Z) (encoder : list Z) :
  forall n, finished (armPoll keepWaiting power encoder n) = Returned tt
            <-> Exists (fun e => keepWaiting e = false) encoder.
Proof.
  induction encoder as [|e encoder IH]; intros n; cbn [armPoll].
  - cbn. rewrite Exists_nil. split; [discriminate | contradiction].
  - rewrite Exists_cons. destruct (keepWaiting e) eqn:He.
    + rewrite IH. intuition discriminate.
    + cbn. tauto.
Qed.

Lemma armStep_motor (speed stepSize : Z) (encoder : list Z) :
  motorArm (armStep speed stepSize encoder) = speed.
Proof.
  unfold armStep. destruct ((if speed >? 0 then 1 else -1) =? 1); apply armPoll_motor.
Qed.

(** The two loops of [armStep] on an encoder that stays short of 100 ticks. *)
Lemma armStep_returns_up_down_aux (speed stepTicks : Z) (encoder : list Z) :
  0 <= stepTicks ->
  (0 < speed -> Forall (fun v => v < stepTicks) encoder ->
   armStep speed stepTicks encoder = mkArmRun Waiting speed (length encoder) []) /\
  (speed < 0 -> Forall (fun v => - stepTicks < v) encoder ->
   armStep speed stepTicks encoder = mkArmRun Waiting speed (length encoder) []).
Proof.
  intros Hticks. split; intros Hs Hall.
  - rewrite armStep_up by assumption. rewrite (Z.abs_eq stepTicks) by assumption.
    rewrite armPoll_waits; [reflexivity|].
    eapply Forall_impl; [|exact Hall]. cbv beta. intros v Hv. lia.
  - rewrite armStep_down by lia. rewrite (Z.abs_eq stepTicks) by assumption.
    rewrite armPoll_waits; [reflexivity|].
    eapply Forall_impl; [|exact Hall]. cbv beta. intros v Hv. lia.
Qed.

(** X12.  [armStep] never stops the arm motor: whether or not the call has
    returned, [motor[motorArm]] holds [speed].  The sign of [stepSize] is
    ignored, a speed of 0 is handled like a negative one, and the call returns
    exactly when the encoder shows a value at or beyond the threshold on the
    side of the direction. *)
Theorem armStep_leaves_motor_running (speed stepSize : Z) (encoder : list Z) :
  motorArm (armStep speed stepSize encoder) = speed /\
  armStep speed (- stepSize) encoder = armStep speed stepSize encoder /\
  (finished (armStep speed stepSize encoder) = Returned tt <->
   Exists (fun e => if speed >? 0 then Z.abs stepSize <= e
                    else e <= - Z.abs stepSize) encoder).
Proof.
  split; [apply armStep_motor | split].
  - unfold armStep. rewrite Z.abs_opp. reflexivity.
  - unfold armStep. destruct (Z.gtb_spec speed 0);
      [change (1 =? 1) with true | change (-1 =? 1) with false]; cbv iota;
      rewrite armPoll_returns_iff, !Exists_exists;
      split; intros (e & Hin & He); exists e; (split; [exact Hin | lia]).
Qed.

Example armStep_zero_speed_waits_downward :
  finished (armStep 0 100 [0; 0; 150]) = Waiting /\
  armStep 0 100 [0; -100; 7] = mkArmRun (Returned tt) 0 2 [7].
Proof. split; reflexivity. Qed.

(** X13.  A pass of the [armTask] loop body that runs to its end: the sweeper
    servo is set by the last of the tests for buttons 2, 4, 3 that fires, so
    "off" (3) wins over "reverse" (4), which wins over "on" (2); the arm motor
    is set by the TopHat when it is idle, down or up, and otherwise keeps the
    power of the last step made (-50 after a step down, 50 after a step up),
    since [armStep] does not stop it; the compass servo is not touched. *)
Theorem armTask_body_outcome (joy : Joy2) (encoder : list Z) (s : Servos) (arm : Z) :
  let run := armTask_body joy encoder s arm in
  iteration run = Returned tt ->
  servoSweeper (servosAfter run)
  = (if joy2Btn3 joy then 128 else if joy2Btn4 joy then 0
     else if joy2Btn2 joy then 255 else servoSweeper s) /\
  armMotorAfter run
  = (if joy2_TopHat joy =? TopHat_Idle then 0
     else if joy2_TopHat joy =? TopHat_Down then -40
     else if joy2_TopHat joy =? TopHat_Up then 40
     else if joy2Btn8 joy then -50 else if joy2Btn6 joy then 50 else arm) /\
  servoCompass (servosAfter run) = servoCompass s.
Proof.
  cbv zeta. unfold armTask_body, armStepUp, armStepDown.
  destruct joy as [b2 b3 b4 b6 b8 hat]. cbn [joy2Btn2 joy2Btn3 joy2Btn4 joy2Btn6
    joy2Btn8 joy2_TopHat].
  set (up := if b6 then armStep 50 100 encoder else mkArmRun (Returned tt) arm 0 encoder).
  assert (Hup : motorArm up = if b6 then 50 else arm).
  { unfold up. destruct b6; [apply armStep_motor | reflexivity]. }
  destruct (finished up) as [[]|]; [|discriminate].
  set (down := if b8 then armStep (-50) 100 (encoderUnread up)
               else mkArmRun (Returned tt) (motorArm up) 0 (encoderUnread up)).
  assert (Hdown : motorArm down = if b8 then -50 else motorArm up).
  { unfold down. destruct b8; [apply armStep_motor | reflexivity]. }
  destruct (finished down) as [[]|]; [|discriminate].
  intros _. cbn [servosAfter armMotorAfter]. rewrite Hdown, Hup.
  split; [|split].
  - destruct b2, b3, b4; reflexivity.
  - unfold TopHat_Idle, TopHat_Down, TopHat_Up.
    destruct (Z.eqb_spec hat (-1)), (Z.eqb_spec hat 4), (Z.eqb_spec hat 0);
      try lia; destruct b8, b6; reflexivity.
  - destruct b2, b3, b4; reflexivity.
Qed.

Lemma armTask_body_outcome_witness :
  let run := armTask_body (mkJoy2 true true true true false 2) [0; 60; 120; 0]
               (mkServos 1 2 3 4) 0 in
  servoSweeper (servosAfter run)
  = (if true then 128 else if true then 0 else if true then 255 else 2) /\
  armMotorAfter run
  = (if 2 =? TopHat_Idle then 0
     else if 2 =? TopHat_Down then -40
     else if 2 =? TopHat_Up then 40
     else if false then -50 else if true then 50 else 0) /\
  servoCompass (servosAfter run) = 1.
Proof.
  apply (armTask_body_outcome (mkJoy2 true true true true false 2) [0; 60; 120; 0]
           (mkServos 1 2 3 4) 0).
  reflexivity.
Defined.

(** X14.  The hang the TeleOp comment warns of: with button 6 pressed and an
    encoder that stays below 100 (or, button 6 released and button 8 pressed,
    an encoder that stays above -100), the pass through the [armTask] body
    has not ended after any number of encoder reads, the arm motor is at the
    step power all the while, and the TopHat is never looked at. *)
Theorem armTask_body_hangs_on_short_step
  (joy : Joy2) (encoder : list Z) (s : Servos) (arm : Z) :
  (joy2Btn6 joy = true /\ Forall (fun e => e < 100) encoder) \/
  (joy2Btn6 joy = false /\ joy2Btn8 joy = true /\ Forall (fun e => -100 < e) encoder) ->
  let run := armTask_body joy encoder s arm in
  iteration run = Waiting /\
  armMotorAfter run = (if joy2Btn6 joy then 50 else -50) /\
  encoderAfter run = [].
Proof.
  intros Hcase. cbv zeta. unfold armTask_body, armStepUp, armStepDown.
  destruct Hcase as [[H6 Hlow] | (H6 & H8 & Hhigh)]; rewrite H6.
  - destruct (armStep_returns_up_down_aux 50 100 encoder ltac:(lia)) as [Hup _].
    rewrite (Hup ltac:(lia) Hlow). cbn. repeat split.
  - cbn [finished encoderUnread motorArm]. rewrite H8.
    destruct (armStep_returns_up_down_aux (-50) 100 encoder ltac:(lia)) as [_ Hdn].
    rewrite (Hdn ltac:(lia) Hhigh). cbn. repeat split.
Qed.

Lemma armTask_body_hangs_on_short_step_witness :
  let run := armTask_body (mkJoy2 false false false true true (-1)) [0; 40; 99; 99]
               (mkServos 1 2 3 4) 0 in
  iteration run = Waiting /\
  armMotorAfter run = (if true then 50 else -50) /\
  encoderAfter run = [].
Proof.
  apply (armTask_body_hangs_on_short_step (mkJoy2 false false false true true (-1))
           [0; 40; 99; 99] (mkServos 1 2 3 4) 0).
  left. split; [reflexivity | repeat constructor; lia].
Defined.

(** X15.  No function of the header ever moves the compass holder down:
    [compassDown] writes [compassHolderUp], exactly as [compassUp] does, so
    after any sequence of calls of the servo functions the compass servo holds
    its initial value or [compassHolderUp]; [compassHolderDown] only ever
    reaches the upper servo limit. *)
Theorem compass_holder_never_lowered
  (P : HolderPositions) (calls : list ServoCall) (s : Servos) :
  compassDown P s = compassUp P s /\
  (servoCompass (servoCalls P calls s) = servoCompass s \/
   servoCompass (servoCalls P calls s) = compassHolderUp P) /\
  (In CallCompassDown calls ->
   servoCompass (servoCalls P calls s) = compassHolderUp P).
Proof.
  split; [reflexivity|]. unfold servoCalls.
  revert s. induction calls as [|c calls IH] using rev_ind; intros s.
  - cbn. split; [left; reflexivity | contradiction].
  - rewrite fold_left_app. cbn [fold_left].
    destruct (IH s) as [Hinv Hdown]. split.
    + destruct c; cbn; auto.
    + intros Hin. apply in_app_or in Hin. destruct Hin as [Hin|[->|[]]].
      * specialize (Hdown Hin). destruct c; cbn; auto.
      * reflexivity.
Qed.

Lemma compass_holder_never_lowered_witness :
  compassDown (mkHolderPositions 200 20) (mkServos 77 128 0 255)
  = compassUp (mkHolderPositions 200 20) (mkServos 77 128 0 255) /\
  (servoCompass (servoCalls (mkHolderPositions 200 20)
                   [CallCompassSetup; CallCompassDown; CallSweeperOn]
                   (mkServos 77 128 0 255)) = 77 \/
   servoCompass (servoCalls (mkHolderPositions 200 20)
                   [CallCompassSetup; CallCompassDown; CallSweeperOn]
                   (mkServos 77 128 0 255)) = 200) /\
  (In CallCompassDown [CallCompassSetup; CallCompassDown; CallSweeperOn] ->
   servoCompass (servoCalls (mkHolderPositions 200 20)
                   [CallCompassSetup; CallCompassDown; CallSweeperOn]
                   (mkServos 77 128 0 255)) = 200).
Proof.
  exact (compass_holder_never_lowered (mkHolderPositions 200 20)
           [CallCompassSetup; CallCompassDown; CallSweeperOn] (mkServos 77 128 0 255)).
Defined.

(** ** Further properties of [moveRobot], [atan2] and [drivingTask] *)

Lemma truncate_opp (q : Q) : truncate (- q) = - truncate q.
Proof.
  destruct q as [n d]. unfold truncate. cbn. apply Z.quot_opp_l. discriminate.
Qed.

Lemma truncate_Qeq (q q' : Q) : (q == q')%Q -> truncate q = truncate q'.
Proof.
  destruct q as [n d], q' as [n' d']. unfold Qeq, truncate. cbn. intros Heq.
  rewrite <- (Z.quot_mul_cancel_r n (Zpos d) (Zpos d')) by discriminate.
  rewrite <- (Z.quot_mul_cancel_r n' (Zpos d') (Zpos d)) by discriminate.
  rewrite Heq. f_equal. apply Z.mul_comm.
Qed.

Lemma truncate_lower (q : Q) (n : Z) : (inject_Z n <= q)%Q -> n <= truncate q.
Proof.
  destruct q as [a d]. unfold Qle, truncate. cbn. rewrite Z.mul_1_r. intros Hle.
  apply Z.quot_le_lower_bound; lia.
Qed.

Lemma truncate_small (q : Q) : (Qabs q < 1)%Q -> truncate q = 0.
Proof.
  destruct q as [a d]. unfold Qlt, truncate. cbn. rewrite Z.mul_1_r. intros Hlt.
  apply Z.quot_small_iff; [discriminate|]. cbn. lia.
Qed.

Lemma cap100_truncate_top (speed : Q) :
  (100 <= speed)%Q -> cap100 (truncate speed) = 100.
Proof.
  intros Hs. pose proof (truncate_lower speed 100 Hs).
  unfold cap100. destruct (Z.gtb_spec (truncate speed) 0); lia.
Qed.

Lemma cap100_truncate_bottom (speed : Q) :
  (speed <= -100)%Q -> cap100 (truncate speed) = -100.
Proof.
  intros Hs.
  assert (Hn : (inject_Z 100 <= - speed)%Q).
  { apply Qopp_le_compat in Hs. exact Hs. }
  pose proof (truncate_lower (- speed) 100 Hn) as Ht. rewrite truncate_opp in Ht.
  unfold cap100. destruct (Z.gtb_spec (truncate speed) 0); lia.
Qed.

(** [moveRobot] overwrites all four registers. *)
Lemma moveRobot_overwrites (F : FloatOps) (speed angle : Q) (m m' : Motors) :
  moveRobot F speed angle m = moveRobot F speed angle m'.
Proof. reflexivity. Qed.

(** The wheel values depend on the speed only through [cap100 (truncate speed)]. *)
Lemma moveRobot_capped (F : FloatOps) (speed speed' angle : Q) (m : Motors) :
  cap100 (truncate speed) = cap100 (truncate speed') ->
  moveRobot F speed angle m = moveRobot F speed' angle m.
Proof. intros Heq. unfold moveRobot. rewrite Heq. reflexivity. Qed.

Lemma moveRobot_wheel_bound (F : FloatOps) (speed angle : Q) (m : Motors) :
  FloatOps_ok F ->
  let c := Z.abs (cap100 (truncate speed)) in
  let m' := moveRobot F speed angle m in
  Z.abs (motorNW m') <= c /\ Z.abs (motorNE m') <= c /\
  Z.abs (motorSE m') <= c /\ Z.abs (motorSW m') <= c.
Proof.
  intros F_ok. cbv zeta.
  pose proof (cap100_range (truncate speed)) as Hcap.
  assert (Ht : Z.abs (cap100 (truncate speed)) <= 100) by lia.
  unfold moveRobot. cbn [motorNW motorNE motorSE motorSW].
  set (c := cap100 (truncate speed)) in *.
  pose proof (component_bound F F_ok (cosDegrees F angle) c Ht
                (cosDegrees_bound F F_ok angle)) as Hx.
  pose proof (component_bound F F_ok (sinDegrees F angle) c Ht
                (sinDegrees_bound F F_ok angle)) as Hy.
  set (x := roundF F (cosDegrees F angle * inject_Z c)) in *.
  set (y := roundF F (sinDegrees F angle * inject_Z c)) in *.
  assert (Hnx : (Qabs (- x) <= inject_Z (Z.abs c))%Q) by (rewrite Qabs_opp; exact Hx).
  assert (Hny : (Qabs (- y) <= inject_Z (Z.abs c))%Q) by (rewrite Qabs_opp; exact Hy).
  assert (Hn : 0 <= Z.abs c <= 100) by lia.
  repeat split.
  - apply (half_bound F F_ok (- x) (- y)); assumption.
  - apply (half_bound F F_ok (- x) y); assumption.
  - apply (half_bound F F_ok x y); assumption.
  - apply (half_bound F F_ok x (- y)); assumption.
Qed.

(** X16.  Whatever the speed and the angle, no wheel value [moveRobot] writes
    leaves the motor range: each has magnitude at most
    [|cap100(speed)|], hence at most 100; and a speed of magnitude below 1,
    which the conversion to [int] turns into 0, stops all four wheels. *)
Theorem moveRobot_wheels_in_motor_range
  (F : FloatOps) (speed angle : Q) (m : Motors) :
  FloatOps_ok F ->
  let m' := moveRobot F speed angle m in
  (Z.abs (motorNW m') <= Z.abs (cap100 (truncate speed)) <= 100 /\
   Z.abs (motorNE m') <= Z.abs (cap100 (truncate speed)) <= 100 /\
   Z.abs (motorSE m') <= Z.abs (cap100 (truncate speed)) <= 100 /\
   Z.abs (motorSW m') <= Z.abs (cap100 (truncate speed)) <= 100) /\
  ((Qabs speed < 1)%Q -> m' = stopped).
Proof.
  intros F_ok. cbv zeta.
  pose proof (moveRobot_wheel_bound F speed angle m F_ok) as Hb. cbv zeta in Hb.
  pose proof (cap100_range (truncate speed)) as Hcap.
  split; [lia|].
  intros Hsmall. rewrite (truncate_small speed Hsmall) in Hb.
  change (Z.abs (cap100 0)) with 0 in Hb.
  destruct (moveRobot F speed angle m) as [nw ne se sw].
  cbn [motorNW motorNE motorSE motorSW] in Hb. unfold stopped. f_equal; lia.
Qed.

Lemma moveRobot_wheels_in_motor_range_witness :
  let m' := moveRobot axisFloat 250 90 stopped in
  (Z.abs (motorNW m') <= Z.abs (cap100 (truncate 250)) <= 100 /\
   Z.abs (motorNE m') <= Z.abs (cap100 (truncate 250)) <= 100 /\
   Z.abs (motorSE m') <= Z.abs (cap100 (truncate 250)) <= 100 /\
   Z.abs (motorSW m') <= Z.abs (cap100 (truncate 250)) <= 100) /\
  ((Qabs 250 < 1)%Q -> m' = stopped).
Proof.
  exact (moveRobot_wheels_in_motor_range axisFloat 250 90 stopped axisFloat_ok).
Defined.

(** X17.  [moveRobot] saturates: every speed from 100 up to 32767, the
    largest value every [int] holds, gives the wheel values of speed 100,
    every speed from -100 down to -32768 those of speed -100, and the previous
    contents of the motor registers never matter.  (Beyond that range the
    conversion of the speed to [int] depends on the width of [int] and is not
    covered.) *)
Theorem moveRobot_saturates (F : FloatOps) (speed angle : Q) (m m' : Motors) :
  ((100 <= speed <= 32767)%Q ->
   fits_int16 (truncate speed) /\
   moveRobot F speed angle m = moveRobot F 100 angle m') /\
  ((-32768 <= speed <= -100)%Q ->
   fits_int16 (truncate speed) /\
   moveRobot F speed angle m = moveRobot F (-100) angle m').
Proof.
  split; intros [Hlo Hhi].
  - split.
    + pose proof (truncate_lower speed 100 Hlo).
      assert (Ha : (Qabs speed <= inject_Z 32767)%Q).
      { apply Qabs_Qle_condition. split; [|exact Hhi].
        eapply Qle_trans; [|exact Hlo]. discriminate. }
      pose proof (truncate_bound speed 32767 Ha). unfold fits_int16. lia.
    + rewrite (moveRobot_overwrites F speed angle m m'). apply moveRobot_capped.
      rewrite cap100_truncate_top by assumption. reflexivity.
  - split.
    + assert (Hn : (inject_Z 100 <= - speed)%Q).
      { apply Qopp_le_compat in Hhi. exact Hhi. }
      pose proof (truncate_lower (- speed) 100 Hn) as Ht. rewrite truncate_opp in Ht.
      assert (Ha : (Qabs speed <= inject_Z 32768)%Q).
      { apply Qabs_Qle_condition. split; [exact Hlo|].
        eapply Qle_trans; [exact Hhi|]. discriminate. }
      pose proof (truncate_bound speed 32768 Ha). unfold fits_int16. lia.
    + rewrite (moveRobot_overwrites F speed angle m m'). apply moveRobot_capped.
      rewrite cap100_truncate_bottom by assumption. reflexivity.
Qed.

Lemma moveRobot_saturates_witness :
  fits_int16 (truncate (1001 # 4)) /\
  moveRobot axisFloat (1001 # 4) 0 (mkMotors 9 9 9 9) = moveRobot axisFloat 100 0 stopped.
Proof.
  apply (proj1 (moveRobot_saturates axisFloat (1001 # 4) 0 (mkMotors 9 9 9 9) stopped)).
  split; discriminate.
Defined.

(** X18.  With a rounding that is symmetric about 0 (and does not depend on
    how a rational is written), [moveRobot] gives diagonally opposite wheels
    opposite values: SE is the negation of NW and SW the negation of NE. *)
Theorem moveRobot_diagonals_opposite (F : FloatOps) (speed angle : Q) (m : Motors) :
  (forall q, roundF F (- q) == - roundF F q)%Q ->
  (forall q q', q == q' -> roundF F q == roundF F q')%Q ->
  let m' := moveRobot F speed angle m in
  motorSE m' = - motorNW m' /\ motorSW m' = - motorNE m'.
Proof.
  intros Hodd Hproper. cbv zeta. unfold moveRobot.
  cbn [motorNW motorNE motorSE motorSW].
  set (x := roundF F (cosDegrees F angle * inject_Z (cap100 (truncate speed)))).
  set (y := roundF F (sinDegrees F angle * inject_Z (cap100 (truncate speed)))).
  assert (Hhalf : forall u v, (v == - u)%Q ->
            truncate (roundF F (roundF F u / 2)%Q)
            = - truncate (roundF F (roundF F v / 2)%Q)).
  { intros u v Huv. rewrite <- truncate_opp. apply truncate_Qeq.
    rewrite <- Hodd. apply Hproper.
    rewrite (Hproper v (- u)%Q Huv), Hodd. unfold Qdiv. ring. }
  split; apply Hhalf; ring.
Qed.

Lemma moveRobot_diagonals_opposite_witness :
  let m' := moveRobot axisFloat 80 180 stopped in
  motorSE m' = - motorNW m' /\ motorSW m' = - motorNE m'.
Proof.
  apply (moveRobot_diagonals_opposite axisFloat 80 180 stopped).
  - intros q. reflexivity.
  - intros q q' Hq. exact Hq.
Defined.

Lemma Qgtb_true_iff (x y : Q) : Qgtb x y = true <-> (y < x)%Q.
Proof.
  unfold Qgtb. rewrite negb_true_iff. split.
  - intros Hb. apply Qnot_le_lt. intros Hle. apply Qle_bool_iff in Hle. congruence.
  - intros Hlt. destruct (Qle_bool x y) eqn:Hb; [|reflexivity].
    apply Qle_bool_iff in Hb. exfalso. exact (Qlt_not_le _ _ Hlt Hb).
Qed.

Lemma Qltb_true_iff (x y : Q) : Qltb x y = true <-> (x < y)%Q.
Proof. exact (Qgtb_true_iff y x). Qed.

Lemma Qgtb_false_iff (x y : Q) : Qgtb x y = false <-> (x <= y)%Q.
Proof.
  unfold Qgtb. rewrite negb_false_iff. apply Qle_bool_iff.
Qed.

Lemma Qgtb_inject_Z (a b : Z) : Qgtb (inject_Z a) (inject_Z b) = (a >? b).
Proof.
  unfold Qgtb, Qle_bool. cbn. rewrite !Z.mul_1_r.
  rewrite Z.gtb_ltb, Z.ltb_antisym. reflexivity.
Qed.

Lemma Qltb_inject_Z (a b : Z) : Qltb (inject_Z a) (inject_Z b) = (a <? b).
Proof.
  unfold Qltb, Qle_bool. cbn. rewrite !Z.mul_1_r.
  rewrite Z.ltb_antisym. reflexivity.
Qed.

(** [atan2] on the open third quadrant. *)
Lemma atan2_third_quadrant_aux (F : FloatOps) (M : MathOps) (xVal yVal : Q) :
  (xVal < 0)%Q -> (yVal < 0)%Q -> atan2 F M xVal yVal = 0%Q.
Proof.
  unfold atan2. intros Hx Hy.
  assert (Hx0 : Qgtb xVal 0 = false) by (apply Qgtb_false_iff, Qlt_le_weak, Hx).
  assert (Hy0 : Qgeb yVal 0 = false).
  { unfold Qgeb. destruct (Qle_bool 0 yVal) eqn:Hb; [|reflexivity].
    apply Qle_bool_iff in Hb. exfalso. exact (Qlt_not_le _ _ Hy Hb). }
  assert (Hxe : Qeq_bool xVal 0 = false).
  { destruct (Qeq_bool xVal 0) eqn:Hb; [|reflexivity].
    apply Qeq_bool_iff in Hb. rewrite Hb in Hx. discriminate. }
  rewrite Hx0, Hy0, Hxe. cbn [andb]. rewrite !andb_false_r. reflexivity.
Qed.

(** X19.  The header's own [atan2] loses the third quadrant: for negative
    [x] and negative [y] it returns 0, as it does at the origin.  For
    positive [x] it always returns [atan(y/x)], also for negative [y], so its
    branch [-PI + atan(y/x)] is never taken. *)
Theorem atan2_third_quadrant_is_zero (F : FloatOps) (M : MathOps) (xVal yVal : Q) :
  ((xVal < 0)%Q -> (yVal < 0)%Q -> atan2 F M xVal yVal = 0%Q) /\
  ((xVal == 0)%Q -> (yVal == 0)%Q -> atan2 F M xVal yVal = 0%Q) /\
  ((0 < xVal)%Q -> atan2 F M xVal yVal = atanF M (roundF F (yVal / xVal))).
Proof.
  split; [|unfold atan2; split].
  - apply atan2_third_quadrant_aux.
  - intros Hx Hy.
    assert (Hx0 : Qgtb xVal 0 = false).
    { apply Qgtb_false_iff. rewrite Hx. apply Qle_refl. }
    assert (Hx1 : Qltb xVal 0 = false).
    { apply (Qgtb_false_iff 0 xVal). rewrite Hx. apply Qle_refl. }
    assert (Hy0 : Qgtb yVal 0 = false).
    { apply Qgtb_false_iff. rewrite Hy. apply Qle_refl. }
    assert (Hy1 : Qltb yVal 0 = false).
    { apply (Qgtb_false_iff 0 yVal). rewrite Hy. apply Qle_refl. }
    rewrite Hx0, Hx1, Hy0, Hy1. cbn [andb]. rewrite !andb_false_r. reflexivity.
  - intros Hx. apply Qgtb_true_iff in Hx. rewrite Hx. reflexivity.
Qed.

Lemma atan2_third_quadrant_is_zero_witness :
  atan2 axisFloat axisMath (-50) (-50) = 0%Q /\
  atan2 axisFloat axisMath 50 (-50) = atanF axisMath (roundF axisFloat (-50 / 50)).
Proof.
  split.
  - apply (proj1 (atan2_third_quadrant_is_zero axisFloat axisMath (-50) (-50)));
      reflexivity.
  - apply (proj2 (proj2
             (atan2_third_quadrant_is_zero axisFloat axisMath 50 (-50)))).
    reflexivity.
Defined.

(** The shaped value of a reading in the logarithmic dead zone of the drive
    loop. *)
Lemma scaleJoystick_default_small (b : bool) (raw : Z) :
  (if b then Z.abs raw <= 27 else Z.abs raw <= 13) ->
  Z.abs (scaleJoystick_default b raw) <= 10.
Proof.
  intros Hraw. rewrite scaleJoystick_default_curve. unfold curve. destruct b.
  - assert (Hc : clampAxis raw = raw) by (apply clampAxis_id; lia).
    rewrite Hc. unfold logCurve.
    destruct (Z.geb_spec (Z.quot raw 4) 0) as [Hq|Hq].
    + pose proof (nLogScale_at_sorted (Z.quot raw 4) 6 ltac:(lia)
                    ltac:(Z.quot_rem_to_equations; lia) ltac:(lia)) as Hs.
      pose proof (nLogScale_at_bounds (Z.quot raw 4)
                    ltac:(Z.quot_rem_to_equations; lia)) as Hb.
      change (nLogScale_at 6) with 10 in Hs. lia.
    + pose proof (nLogScale_at_sorted (- Z.quot raw 4) 6
                    ltac:(lia) ltac:(Z.quot_rem_to_equations; lia) ltac:(lia)) as Hs.
      pose proof (nLogScale_at_bounds (- Z.quot raw 4)
                    ltac:(Z.quot_rem_to_equations; lia)) as Hb.
      change (nLogScale_at 6) with 10 in Hs. lia.
  - assert (Hc : clampAxis raw = raw) by (apply clampAxis_id; lia).
    rewrite Hc. unfold linearCurve.
    destruct (Z.abs raw <? 10); [cbn; lia|].
    Z.quot_rem_to_equations. lia.
Qed.

(** X20.  One pass of the [drivingTask] loop body leaves every wheel command
    within the motor range [-100,100], whatever the joystick shows: the drive
    branch goes through [moveRobot], which caps, and the spin branch passes
    [spin] a shaped value, which [scaleJoystick] keeps in range (so here the
    documented argument range of [spin] is respected).  The previous motor
    values do not matter. *)
Theorem drivingTask_body_in_motor_range
  (b : bool) (F : FloatOps) (M : MathOps) (joy : Joy1) (m : Motors) :
  FloatOps_ok F ->
  let m' := drivingTask_body b F M joy m in
  -100 <= motorNW m' <= 100 /\ -100 <= motorNE m' <= 100 /\
  -100 <= motorSE m' <= 100 /\ -100 <= motorSW m' <= 100.
Proof.
  intros F_ok. cbv zeta. unfold drivingTask_body.
  match goal with |- context [if ?c then moveRobot F ?s ?a m else _] =>
    destruct c;
    [ pose proof (moveRobot_wheel_bound F s a m F_ok) as Hb; cbv zeta in Hb;
      pose proof (cap100_range (truncate s)); lia |]
  end.
  pose proof (curve_bounds b (joy1_x2 joy)) as Hr.
  rewrite <- scaleJoystick_default_curve in Hr.
  destruct ((joy1_x2 joy >? 10) || (joy1_x2 joy <? -10)); rewrite spin_all;
    cbn [motorNW motorNE motorSE motorSW]; lia.
Qed.

Lemma drivingTask_body_in_motor_range_witness :
  let m' := drivingTask_body true axisFloat axisMath (mkJoy1 127 0 0) stopped in
  -100 <= motorNW m' <= 100 /\ -100 <= motorNE m' <= 100 /\
  -100 <= motorSE m' <= 100 /\ -100 <= motorSW m' <= 100.
Proof.
  exact (drivingTask_body_in_motor_range true axisFloat axisMath (mkJoy1 127 0 0)
           stopped axisFloat_ok).
Defined.

Example drivingTask_body_full_east :
  drivingTask_body true axisFloat axisMath (mkJoy1 127 0 0) stopped
  = mkMotors (-50) (-50) 50 50.
Proof. reflexivity. Qed.

(** X21.  The dead zone of the drive loop: when both shaped stick values of
    the left joystick and the raw value of the right one are at most 10 in
    magnitude, the pass stops all four wheels.  For the left stick that is a
    raw reading of magnitude at most 27 with the logarithmic curve and at
    most 13 with the linear one. *)
Theorem drivingTask_body_dead_zone
  (b : bool) (F : FloatOps) (M : MathOps) (joy : Joy1) (m : Motors) :
  (if b then Z.abs (joy1_x1 joy) <= 27 else Z.abs (joy1_x1 joy) <= 13) ->
  (if b then Z.abs (joy1_y1 joy) <= 27 else Z.abs (joy1_y1 joy) <= 13) ->
  Z.abs (joy1_x2 joy) <= 10 ->
  drivingTask_body b F M joy m = stopped.
Proof.
  intros Hx Hy Hr. unfold drivingTask_body.
  apply scaleJoystick_default_small in Hx, Hy.
  change 10%Q with (inject_Z 10). change (-10)%Q with (inject_Z (-10)).
  rewrite !Qgtb_inject_Z, !Qltb_inject_Z.
  destruct (Z.gtb_spec (scaleJoystick_default b (joy1_x1 joy)) 10); [lia|].
  destruct (Z.ltb_spec (scaleJoystick_default b (joy1_x1 joy)) (-10)); [lia|].
  destruct (Z.gtb_spec (scaleJoystick_default b (joy1_y1 joy)) 10); [lia|].
  destruct (Z.ltb_spec (scaleJoystick_default b (joy1_y1 joy)) (-10)); [lia|].
  cbn [orb].
  destruct (Z.gtb_spec (joy1_x2 joy) 10); [lia|].
  destruct (Z.ltb_spec (joy1_x2 joy) (-10)); [lia|].
  reflexivity.
Qed.

Lemma drivingTask_body_dead_zone_witness :
  drivingTask_body true axisFloat axisMath (mkJoy1 27 (-27) 10) (mkMotors 60 60 60 60)
  = stopped.
Proof.
  apply (drivingTask_body_dead_zone true axisFloat axisMath (mkJoy1 27 (-27) 10)
           (mkMotors 60 60 60 60)); cbn; lia.
Defined.

(** X22.  Through [getAngle] the third-quadrant gap of [atan2] reaches the
    wheels: when both shaped values of the left stick are negative and one
    is below -10, the pass drives with the heading
    [radiansToDegrees(0)], the same for every such stick position. *)
Theorem drivingTask_body_third_quadrant
  (b : bool) (F : FloatOps) (M : MathOps) (joy : Joy1) (m : Motors) :
  let x := scaleJoystick_default b (joy1_x1 joy) in
  let y := scaleJoystick_default b (joy1_y1 joy) in
  x < 0 -> y < 0 -> x < -10 \/ y < -10 ->
  exists speedMagnitude : Z,
    drivingTask_body b F M joy m
    = moveRobot F (inject_Z speedMagnitude)
        (inject_Z (truncate (radiansToDegreesF M 0%Q))) m.
Proof.
  cbv zeta. intros Hx Hy Hmove. unfold drivingTask_body, getAngle.
  set (x := scaleJoystick_default b (joy1_x1 joy)) in *.
  set (y := scaleJoystick_default b (joy1_y1 joy)) in *.
  assert (Hatan : atan2 F M (inject_Z x) (inject_Z y) = 0%Q).
  { apply atan2_third_quadrant_aux.
    - change 0%Q with (inject_Z 0). rewrite <- Zlt_Qlt. exact Hx.
    - change 0%Q with (inject_Z 0). rewrite <- Zlt_Qlt. exact Hy. }
  rewrite Hatan.
  change 10%Q with (inject_Z 10). change (-10)%Q with (inject_Z (-10)).
  rewrite !Qgtb_inject_Z, !Qltb_inject_Z.
  assert (Hcond : (x >? 10) || (x <? -10) || (y >? 10) || (y <? -10) = true).
  { destruct Hmove as [Hm|Hm].
    - destruct (Z.ltb_spec x (-10)); [|lia]. rewrite orb_true_r. reflexivity.
    - destruct (Z.ltb_spec y (-10)); [|lia]. rewrite orb_true_r. reflexivity. }
  rewrite Hcond. eexists. reflexivity.
Qed.

Lemma drivingTask_body_third_quadrant_witness :
  exists speedMagnitude : Z,
    drivingTask_body true axisFloat axisMath (mkJoy1 (-127) (-60) 0) stopped
    = moveRobot axisFloat (inject_Z speedMagnitude)
        (inject_Z (truncate (radiansToDegreesF axisMath 0%Q))) stopped.
Proof.
  apply (drivingTask_body_third_quadrant true axisFloat axisMath
           (mkJoy1 (-127) (-60) 0) stopped);
    [reflexivity | reflexivity | left; reflexivity].
Defined.
